(** * triedir: outline and tree-diagram notations of a directory layout

    A shallow embedding of [main.py]: the two parsers, the tree builder,
    the two renderers, the notation detector and the filesystem
    materializer, followed by the properties proved about them.

    Python values are modelled as follows.
    - [str] is a list of Unicode code points ([char] is [N]); the
      box-drawing glyphs of the diagram notation are single code points,
      as they are for Python's [for char in line].
    - [int] is [Z].
    - A [Node] object is a mutable cell of a store; [children] holds
      references (indices into the store), because [build_tree] keeps
      appending to the children of nodes that are already attached.
      The renderers and the materializer only read a finished tree, which
      is the inductive type [Node]. *)

From Stdlib Require Import ZArith NArith String Ascii.
From stdpp Require Import list gmap.

Local Open Scope Z_scope.

(** ** Strings as the code has them *)

Abbreviation char := N.
Abbreviation str := (list N).

(** A string literal of ASCII characters. *)
Definition lit (s : string) : str :=
  map N_of_ascii (list_ascii_of_string s).

Definition SPACE : char := 32%N.
Definition NEWLINE : char := 10%N.
Definition SLASH : char := 47%N.
(** U+2502, U+251C, U+2514 and U+2500 *)
Definition VERTICAL : char := 9474%N.
Definition TEE : char := 9500%N.
Definition CORNER : char := 9492%N.
Definition HORIZONTAL : char := 9472%N.

(** [str.isspace] on one character: the code points Python strips with
    [strip()] and [rstrip()] when no argument is given. *)
Definition is_space (c : char) : bool :=
  ((9 <=? c) && (c <=? 13) || (28 <=? c) && (c <=? 32) || (c =? 133)
   || (c =? 160) || (c =? 5760) || (8192 <=? c) && (c <=? 8202)
   || (c =? 8232) || (c =? 8233) || (c =? 8239) || (c =? 8287)
   || (c =? 12288))%N.

(** The line boundaries of [str.splitlines]. *)
Definition is_linebreak (c : char) : bool :=
  ((10 <=? c) && (c <=? 13) || (28 <=? c) && (c <=? 30) || (c =? 133)
   || (c =? 8232) || (c =? 8233))%N.

Fixpoint lstrip (s : str) : str :=
  match s with
  | c :: s' => if is_space c then lstrip s' else s
  | [] => []
  end.

Definition rstrip (s : str) : str := rev (lstrip (rev s)).

Definition strip (s : str) : str := lstrip (rstrip s).

(** [str.splitlines()]: a carriage return followed by a line feed is one
    boundary, and a final boundary opens no further line. *)
Fixpoint splitlines (s : str) : list str :=
  match s with
  | [] => []
  | c :: rest =>
      if is_linebreak c then
        [] :: match rest with
              | c' :: rest' =>
                  if ((c =? 13) && (c' =? 10))%N then splitlines rest'
                  else splitlines rest
              | [] => []
              end
      else
        match splitlines rest with
        | [] => [[c]]
        | l :: ls => (c :: l) :: ls
        end
  end.

Fixpoint startswith (s pre : str) {struct pre} : bool :=
  match pre, s with
  | [], _ => true
  | p :: pre', c :: s' => (c =? p)%N && startswith s' pre'
  | _ :: _, [] => false
  end.

(** [s.endswith(suf)] *)
Definition endswith (s suf : str) : bool := startswith (rev s) (rev suf).

(** [s[:-1]] *)
Definition drop_last (s : str) : str := removelast s.

(** [unit * n] for a Python integer [n]: empty when [n] is not positive. *)
Definition repeat_str (unit : str) (n : Z) : str :=
  concat (replicate (Z.to_nat n) unit).

(** ** The outline parser *)

(** The number of leading spaces of a line: the [for char in line] loop
    that stops at the first other character. *)
Fixpoint leading_spaces (line : str) : Z :=
  match line with
  | c :: line' => if (c =? SPACE)%N then 1 + leading_spaces line' else 0
  | [] => 0
  end.

(** A record is a [(name, level)] tuple. *)
Abbreviation entry := (str * Z)%type.

Definition markdown_entry (line : str) : entry :=
  let level := leading_spaces line in
  (strip (drop (Z.to_nat level) line), level).

(** The loop over the lines: trailing whitespace is removed, a line that
    is then empty is skipped, every other line appends one record. *)
Fixpoint parse_markdown_lines (lines : list str) : list entry :=
  match lines with
  | [] => []
  | l :: lines' =>
      let line := rstrip l in
      match line with
      | [] => parse_markdown_lines lines'
      | _ :: _ => markdown_entry line :: parse_markdown_lines lines'
      end
  end.

Definition parse_markdown (markdown_text : str) : list entry :=
  parse_markdown_lines (splitlines markdown_text).

(** ** The tree builder *)

(** A [Node] object in the store. *)
Record cell := mkCell {
  c_name : str;
  c_is_dir : bool;
  c_level : Z;
  c_children : list nat
}.

Abbreviation heap := (list cell).

(** [Node(name, is_dir, level)] *)
Definition new_cell (name : str) (is_dir : bool) (level : Z) : cell :=
  mkCell name is_dir level [].

(** [parent.add_child(child)] *)
Definition push_child (child : nat) (c : cell) : cell :=
  mkCell (c_name c) (c_is_dir c) (c_level c) (c_children c ++ [child]).

Definition add_child (h : heap) (parent child : nat) : heap :=
  alter (push_child child) parent h.

(** [stack[-1].level] read through the reference. *)
Definition level_of (h : heap) (id : nat) : Z :=
  match h !! id with
  | Some c => c_level c
  | None => 0
  end.

(** [while stack and level <= stack[-1].level: stack.pop()]; the top of
    the stack is the head of the list. *)
Fixpoint pop_while (h : heap) (level : Z) (stack : list nat) : list nat :=
  match stack with
  | top :: rest =>
      if level <=? level_of h top then pop_while h level rest else stack
  | [] => []
  end.

(** One iteration of the loop over [entries[1:]]. *)
Definition build_step (st : heap * list nat) (e : entry) : heap * list nat :=
  let '(h, stack) := st in
  let '(name, level) := e in
  let is_dir := endswith name [SLASH] in
  let node := length h in
  let h1 := h ++ [new_cell name is_dir level] in
  let stack1 := pop_while h1 level stack in
  let h2 := match stack1 with
            | top :: _ => add_child h1 top node
            | [] => h1
            end in
  (h2, node :: stack1).

(** [build_tree]: [None] for an empty list, else the store and the
    reference of the root. *)
Definition build_tree (entries : list entry) : option (heap * nat) :=
  match entries with
  | [] => None
  | (name0, level0) :: rest =>
      let root_node := 0%nat in
      let st := foldl build_step ([new_cell name0 true level0], [root_node]) rest in
      Some (st.1, root_node)
  end.

(** ** Finished trees *)

Unset Elimination Schemes.
Inductive Node := mkNode {
  name : str;
  is_dir : bool;
  level : Z;
  children : list Node
}.
Set Elimination Schemes.

(** Reading the tree below a reference out of the store. The children of
    a node are always allocated after it, so a store of [n] cells is read
    with fuel [n]. *)
Fixpoint read_node (fuel : nat) (h : heap) (id : nat) : option Node :=
  match fuel with
  | O => None
  | S fuel' =>
      c ← h !! id;
      kids ← mapM (read_node fuel' h) (c_children c);
      Some (mkNode (c_name c) (c_is_dir c) (c_level c) kids)
  end.

Definition read_tree (r : heap * nat) : option Node :=
  read_node (length r.1) r.1 r.2.

(** [construct_markdown_structure] without its early return of an empty
    string: parse, build, and read the tree off the root. *)
Definition tree_of_markdown (text : str) : option Node :=
  build_tree (parse_markdown text) ≫= read_tree.

Definition outline_example : str :=
  lit "root/" ++ [NEWLINE] ++ lit "    a/" ++ [NEWLINE]
  ++ lit "        b" ++ [NEWLINE] ++ lit "    c" ++ [NEWLINE].

(** ** The tree-diagram renderer *)

Definition DEFAULT_INDENT : str := lit "    ".
Definition DEFAULT_BRANCH : str := [TEE; HORIZONTAL; HORIZONTAL; SPACE].
Definition DEFAULT_LAST_BRANCH : str := [CORNER; HORIZONTAL; HORIZONTAL; SPACE].

Section TreeText.
Variables indent_str branch_str last_branch_str : str.

(** The text a node contributes after its prefix and connector:
    [node.name[:-1] + ("/" if node.is_dir else "")]. *)
Definition rendered_name (node : Node) : str :=
  drop_last (name node) ++ (if is_dir node then [SLASH] else []).

Fixpoint generate_tree_text_recursive
    (node : Node) (prefix : str) (is_last : bool) : str :=
  match node with
  | mkNode nm d lv cs =>
      let result :=
        prefix ++ (if is_last then last_branch_str else branch_str)
        ++ rendered_name (mkNode nm d lv cs) ++ [NEWLINE] in
      let next_prefix :=
        prefix ++ (if is_last then indent_str else VERTICAL :: indent_str) in
      let n := Z.of_nat (length cs) in
      result ++
      (fix loop (i : Z) (rest : list Node) : str :=
         match rest with
         | [] => []
         | child :: rest' =>
             generate_tree_text_recursive child next_prefix (i =? n - 1)
             ++ loop (i + 1) rest'
         end) 0 cs
  end.

(** [root_node] is [None] or a node. *)
Definition generate_tree_text_with (root_node : option Node) : str :=
  match root_node with
  | None => []
  | Some root => generate_tree_text_recursive root [] true
  end.
End TreeText.

(** [generate_tree_text] called with its default arguments. *)
Definition generate_tree_text : option Node -> str :=
  generate_tree_text_with DEFAULT_INDENT DEFAULT_BRANCH DEFAULT_LAST_BRANCH.

(** ** The tree-diagram parser *)

(** [char in (' ', '│', '├', '└', '─', '    ')]: the last member of the
    tuple is a string of four spaces, which no single character equals. *)
Definition is_tree_char (c : char) : bool :=
  ((c =? SPACE) || (c =? VERTICAL) || (c =? TEE) || (c =? CORNER)
   || (c =? HORIZONTAL))%N.

(** [char in ('│', '├', '└')] *)
Definition is_branch_glyph (c : char) : bool :=
  ((c =? VERTICAL) || (c =? TEE) || (c =? CORNER))%N.

(** The first loop over [enumerate(line)], from index [i] on; it returns
    [(level, name_start)]. *)
Fixpoint scan_line (indent_len i : Z) (line : str)
    (level name_start current_indent : Z) : Z * Z :=
  match line with
  | [] => (level, name_start)
  | c :: line' =>
      let name_start := if is_tree_char c then i + 1 else name_start in
      if (c =? SPACE)%N then
        let current_indent := current_indent + 1 in
        if current_indent =? indent_len
        then scan_line indent_len (i + 1) line' (level + 1) name_start 0
        else scan_line indent_len (i + 1) line' level name_start current_indent
      else scan_line indent_len (i + 1) line' level name_start current_indent
  end.

(** The second loop: one more level at the first branch glyph, then
    [break]. *)
Fixpoint glyph_level (line : str) (level : Z) : Z :=
  match line with
  | [] => level
  | c :: line' => if is_branch_glyph c then level + 1 else glyph_level line' level
  end.

Definition tree_entry (indent_len : Z) (line : str) : entry :=
  let '(level, name_start) := scan_line indent_len 0 line 0 0 0 in
  let level := glyph_level line level in
  (strip (drop (Z.to_nat name_start) line), level).

Fixpoint parse_tree_lines (indent_len : Z) (lines : list str) : list entry :=
  match lines with
  | [] => []
  | l :: lines' =>
      let line := rstrip l in
      match line with
      | [] => parse_tree_lines indent_len lines'
      | _ :: _ => tree_entry indent_len line :: parse_tree_lines indent_len lines'
      end
  end.

Definition parse_tree_text_with (indent_str : str) (tree_text : str) : list entry :=
  parse_tree_lines (Z.of_nat (length indent_str)) (splitlines tree_text).

(** [parse_tree_text] called with its default indentation string. *)
Definition parse_tree_text : str -> list entry :=
  parse_tree_text_with DEFAULT_INDENT.

(** ** The outline renderer *)

(** The [print] of each emitted node goes to standard output and is not
    part of the returned text. *)
Fixpoint generate_markdown_recursive (node : Node) (lv : Z) : str :=
  match node with
  | mkNode nm _ _ cs =>
      let result :=
        if lv =? -1 then []
        else repeat_str (lit "    ") lv ++ nm ++ [NEWLINE] in
      result ++
      (fix loop (rest : list Node) : str :=
         match rest with
         | [] => []
         | child :: rest' =>
             generate_markdown_recursive child (level child) ++ loop rest'
         end) cs
  end.

Definition generate_markdown (root_node : option Node) : str :=
  match root_node with
  | None => []
  | Some root => generate_markdown_recursive root 0
  end.

(** ** The notation detector *)

Inductive input_type := markdown | tree.

(** [str.lower] on the letters A to Z. The other case mappings of Unicode
    produce none of the characters of [".md"], [".txt"] and [".tree"], so
    they do not change any comparison made below. *)
Definition lower_char (c : char) : char :=
  if ((65 <=? c) && (c <=? 90))%N then (c + 32)%N else c.

Definition lower (s : str) : str := map lower_char s.

(** A function that falls off its end returns [None]. *)
Definition detect_input_type (input_text file_extension : str) : option input_type :=
  match file_extension with
  | [] => None
  | _ :: _ =>
      let file_extension := lower file_extension in
      if decide (file_extension = lit ".md") then Some markdown
      else if decide (file_extension = lit ".txt" \/ file_extension = lit ".tree")
      then Some tree
      else None
  end.

(** ** The filesystem materializer *)

(** [os.path.join] on two POSIX paths. *)
Definition path_join (a b : str) : str :=
  if startswith b [SLASH] then b
  else match a with
       | [] => b
       | _ :: _ => if endswith a [SLASH] then a ++ b else a ++ [SLASH] ++ b
       end.

(** The operating system as the materializer uses it. [None] stands for a
    raised [OSError]. The laws are those of a POSIX filesystem that no
    other process changes meanwhile. *)
Class FileSystem (fs : Type) := {
  (** [os.makedirs(path, exist_ok=True)] *)
  makedirs : str -> fs -> option fs;
  (** [os.path.exists(path)] *)
  path_exists : str -> fs -> bool;
  (** [open(path, 'w').close()] *)
  create_empty : str -> fs -> option fs;
  (** whether [path] names a directory *)
  is_directory : str -> fs -> bool;
  (** the content of the regular file that [path] names, if any *)
  read_file : str -> fs -> option str;

  makedirs_files : forall p s s', makedirs p s = Some s' ->
    forall q, read_file q s' = read_file q s;
  makedirs_directory : forall p s s', makedirs p s = Some s' ->
    is_directory p s' = true;
  makedirs_existing : forall p s, is_directory p s = true ->
    makedirs p s = Some s;
  makedirs_keeps_dirs : forall p s s', makedirs p s = Some s' ->
    forall q, is_directory q s = true -> is_directory q s' = true;
  makedirs_keeps_paths : forall p s s', makedirs p s = Some s' ->
    forall q, path_exists q s = true -> path_exists q s' = true;
  create_files : forall p s s', path_exists p s = false ->
    create_empty p s = Some s' ->
    forall q c, read_file q s = Some c -> read_file q s' = Some c;
  create_exists : forall p s s', create_empty p s = Some s' ->
    path_exists p s' = true;
  create_keeps_dirs : forall p s s', create_empty p s = Some s' ->
    forall q, is_directory q s = true -> is_directory q s' = true;
  create_keeps_paths : forall p s s', create_empty p s = Some s' ->
    forall q, path_exists q s = true -> path_exists q s' = true
}.

Section Materializer.
Context `{FileSystem fs}.

Fixpoint create_files_and_dirs (node : Node) (current_path : str) (s : fs)
    : option fs :=
  match node with
  | mkNode nm d _ cs =>
      let path := path_join current_path nm in
      if d then
        s1 ← makedirs path s;
        (fix loop (rest : list Node) (s : fs) : option fs :=
           match rest with
           | [] => Some s
           | child :: rest' =>
               s' ← create_files_and_dirs child path s;
               loop rest' s'
           end) cs s1
      else if path_exists path s then Some s
      else create_empty path s
  end.
End Materializer.

(** ** Specification-level notions *)

(** Induction on finished trees, with the property available for every
    child. *)
Fixpoint Node_ind (P : Node -> Prop)
    (step : forall nm d lv cs, Forall P cs -> P (mkNode nm d lv cs))
    (t : Node) : P t :=
  match t with
  | mkNode nm d lv cs =>
      step nm d lv cs
        ((fix all (l : list Node) : Forall P l :=
            match l with
            | [] => Forall_nil_2 P
            | c :: l' => Forall_cons_2 P c l' (Node_ind P step c) (all l')
            end) cs)
  end.

(** The record a cell of the store was created from. *)
Definition cell_entry (c : cell) : entry := (c_name c, c_level c).

(** [node.children] read through the reference. *)
Definition children_of (h : heap) (id : nat) : list nat :=
  match h !! id with
  | Some c => c_children c
  | None => []
  end.

(** The state of the loop of [build_tree] after the record of index [k]:
    the store has [k + 1] cells, the node of that record is on top of the
    stack and has no child yet, the stack holds older nodes below it, a
    node before the last one has no child exactly when the record after
    it is not deeper, and every node still on the stack except the top
    one has a deeper record right after it. *)
Definition build_inv (st : heap * list nat) : Prop :=
  exists k rest,
    length st.1 = S k /\ st.2 = k :: rest
    /\ Forall (fun i => (i < k)%nat) rest
    /\ (forall i, (i < k)%nat ->
          (children_of st.1 i = [] <-> level_of st.1 (S i) <= level_of st.1 i))
    /\ children_of st.1 k = []
    /\ (forall i, i ∈ rest -> level_of st.1 i < level_of st.1 (S i)).

Definition expected_example_tree : Node :=
  mkNode (lit "root/") true 0
    [ mkNode (lit "a/") true 4 [ mkNode (lit "b") false 8 [] ];
      mkNode (lit "c") false 4 [] ].

Definition file_with_child_outline : str :=
  lit "r/" ++ [NEWLINE] ++ lit "    b" ++ [NEWLINE]
  ++ lit "        c" ++ [NEWLINE].

Definition example_entries : list entry :=
  Eval vm_compute in parse_markdown outline_example.

Definition example_heap : heap :=
  Eval vm_compute in
    match build_tree example_entries with
    | Some (h, _) => h
    | None => []
    end.

(** The tree-diagram parser in the words of its description: the number
    of plain spaces of a line, the part of a line after its last space or
    tree-drawing character, and the record they give. *)
Fixpoint count_spaces (line : str) : Z :=
  match line with
  | [] => 0
  | c :: line' => (if (c =? SPACE)%N then 1 else 0) + count_spaces line'
  end.

Fixpoint name_part (line : str) : str :=
  match line with
  | [] => []
  | c :: line' =>
      if is_tree_char c || existsb is_tree_char line' then name_part line'
      else line
  end.

Definition diagram_entry (indent_len : Z) (line : str) : entry :=
  (strip (name_part line),
   count_spaces line / indent_len
   + (if existsb is_branch_glyph line then 1 else 0)).

(** The nodes of a tree in pre-order. *)
Fixpoint preorder (t : Node) : list Node :=
  match t with
  | mkNode nm d lv cs => mkNode nm d lv cs :: flat_map preorder cs
  end.

(** No node below the root carries the level [-1], for which the outline
    renderer emits nothing. *)
Fixpoint no_hidden_node (t : Node) : bool :=
  match t with
  | mkNode _ _ _ cs =>
      forallb (fun c => negb (level c =? -1) && no_hidden_node c) cs
  end.

(** The line of the outline for a node below the root. *)
Definition outline_line (node : Node) : str :=
  repeat_str (lit "    ") (level node) ++ name node ++ [NEWLINE].

(** The loops over [node.children], named. *)
Fixpoint markdown_children (rest : list Node) : str :=
  match rest with
  | [] => []
  | child :: rest' =>
      generate_markdown_recursive child (level child) ++ markdown_children rest'
  end.

Section RenderChildren.
Variables indent_str branch_str last_branch_str : str.
Variable n : Z.
Variable next_prefix : str.

Fixpoint render_children (i : Z) (rest : list Node) : str :=
  match rest with
  | [] => []
  | child :: rest' =>
      generate_tree_text_recursive indent_str branch_str last_branch_str
        child next_prefix (i =? n - 1)
      ++ render_children (i + 1) rest'
  end.
End RenderChildren.

(** ** Notions for the round trip through the tree diagram *)

(** A name that the tree-diagram parser gives back as it is: it has no
    space, tree-drawing character or line boundary, and does not begin
    with whitespace. *)
Definition clean_name (nm : str) : bool :=
  forallb (fun c => negb (is_tree_char c) && negb (is_linebreak c)) nm
  && match nm with
     | c :: _ => negb (is_space c)
     | [] => true
     end.

(** A tree of directories only, each stored under a clean name that ends
    in [/]. *)
Fixpoint directory_tree (t : Node) : bool :=
  match t with
  | mkNode nm d _ cs =>
      d && endswith nm [SLASH] && clean_name nm && forallb directory_tree cs
  end.

(** The tree with the level [lv] at the root and one more per
    generation, and the tree with its levels forgotten. *)
Fixpoint set_levels (lv : Z) (t : Node) : Node :=
  match t with
  | mkNode nm d _ cs => mkNode nm d lv (map (set_levels (lv + 1)) cs)
  end.

Fixpoint forget_levels (t : Node) : Node :=
  match t with
  | mkNode nm d _ cs => mkNode nm d 0 (map forget_levels cs)
  end.

(** Render as a tree diagram, parse the diagram, build, and read the tree
    off the root. *)
Definition diagram_round_trip (t : Node) : option Node :=
  build_tree (parse_tree_text (generate_tree_text (Some t))) ≫= read_tree.

(** The records of a tree in pre-order, its root at level [lv]. *)
Fixpoint records_of (lv : Z) (t : Node) : list entry :=
  match t with
  | mkNode nm _ _ cs => (nm, lv) :: flat_map (records_of (lv + 1)) cs
  end.

(** A prefix of [d] indentation units, each four spaces with or without
    a vertical glyph before them. *)
Definition diagram_prefix (d : Z) (prefix : str) : Prop :=
  forallb is_tree_char prefix = true /\ count_spaces prefix = 4 * d.

(** Where the builder puts the nodes of a tree whose records it reads
    from the reference [n] on: the cells in pre-order, each with the
    references of its children. *)
Fixpoint child_ids (n : nat) (ts : list Node) : list nat :=
  match ts with
  | [] => []
  | t :: ts' => n :: child_ids (n + length (preorder t))%nat ts'
  end.

Fixpoint cells_of (lv : Z) (n : nat) (t : Node) : list cell :=
  match t with
  | mkNode nm _ _ cs =>
      mkCell nm (endswith nm [SLASH]) lv (child_ids (S n) cs)
      :: (fix forest (m : nat) (rest : list Node) : list cell :=
            match rest with
            | [] => []
            | c :: rest' =>
                cells_of (lv + 1) m c ++ forest (m + length (preorder c))%nat rest'
            end) (S n) cs
  end.

Section ForestCells.
Variable lv : Z.

Fixpoint forest_cells (m : nat) (rest : list Node) : list cell :=
  match rest with
  | [] => []
  | c :: rest' =>
      cells_of lv m c ++ forest_cells (m + length (preorder c))%nat rest'
  end.
End ForestCells.

(** The tree as the builder flags it: a node is a directory when its
    name ends in [/]. *)
Fixpoint flagged (lv : Z) (t : Node) : Node :=
  match t with
  | mkNode nm _ _ cs =>
      mkNode nm (endswith nm [SLASH]) lv (map (flagged (lv + 1)) cs)
  end.

(** Several calls of [add_child] on one cell, taken together. *)
Definition push_children (ids : list nat) (c : cell) : cell :=
  mkCell (c_name c) (c_is_dir c) (c_level c) (c_children c ++ ids).

(** The state the builder is in while it reads the records below the
    node [p]: [p] is on the stack, under nodes that are at least as deep
    as the records to come. *)
Definition below (h : heap) (lv : Z) (p : nat) (extra : list nat) : Prop :=
  (p < length h)%nat /\ level_of h p < lv
  /\ Forall (fun q => (q < length h)%nat /\ lv <= level_of h q) extra.

(** Reading the records of a tree, or of a row of trees, below [p]
    appends their cells to the store, gives [p] the new children, and
    leaves [p] on the stack as it was. *)
Definition reads_tree (t : Node) : Prop :=
  forall lv h extra p rest,
    below h lv p extra ->
    exists extra',
      foldl build_step (h, extra ++ p :: rest) (records_of lv t)
      = (alter (push_children [length h]) p h ++ cells_of lv (length h) t,
         extra' ++ p :: rest)
      /\ below (alter (push_children [length h]) p h ++ cells_of lv (length h) t)
           lv p extra'.

Definition reads_forest (ts : list Node) : Prop :=
  forall lv h extra p rest,
    below h lv p extra ->
    exists extra',
      foldl build_step (h, extra ++ p :: rest) (flat_map (records_of lv) ts)
      = (alter (push_children (child_ids (length h) ts)) p h
         ++ forest_cells lv (length h) ts,
         extra' ++ p :: rest)
      /\ below (alter (push_children (child_ids (length h) ts)) p h
                ++ forest_cells lv (length h) ts)
           lv p extra'.

(** Reading the cells of a tree, wherever they lie in the store, gives
    the tree as the builder flags it. *)
Definition reads_back (t : Node) : Prop :=
  forall lv n (before after : heap) fuel,
    length before = n ->
    (length (preorder t) <= fuel)%nat ->
    read_node fuel (before ++ cells_of lv n t ++ after) n = Some (flagged lv t).

Definition directory_example_tree : Node :=
  mkNode (lit "root/") true 0
    [ mkNode (lit "a/") true 4 [ mkNode (lit "b/") true 8 [] ];
      mkNode (lit "c/") true 4 [] ].

(** The rendering rule of the tree diagram in the words of its
    description, on a tree whose names carry no separator: prefix,
    connector by position among the siblings, name, [/] for a directory;
    the children in stored order under the extended prefix. *)
Fixpoint diagram_text (prefix : str) (is_last : bool) (t : Node) : str :=
  match t with
  | mkNode nm d _ cs =>
      let next_prefix :=
        prefix ++ (if is_last then DEFAULT_INDENT else VERTICAL :: DEFAULT_INDENT) in
      (prefix ++ (if is_last then DEFAULT_LAST_BRANCH else DEFAULT_BRANCH)
       ++ nm ++ (if d then [SLASH] else []) ++ [NEWLINE])
      ++ (fix siblings (rest : list Node) : str :=
            match rest with
            | [] => []
            | c :: rest' =>
                diagram_text next_prefix
                  (match rest' with [] => true | _ :: _ => false end) c
                ++ siblings rest'
            end) cs
  end.

(** The tree with the last character of every stored name removed. *)
Fixpoint without_last_char (t : Node) : Node :=
  match t with
  | mkNode nm d lv cs => mkNode (drop_last nm) d lv (map without_last_char cs)
  end.

Definition hidden_child_tree : Node :=
  mkNode (lit "r/") true 0 [ mkNode (lit "x") false (-1) [] ].

Definition file_child_tree : Node :=
  mkNode (lit "r/") true 0 [ mkNode (lit "b") false 4 [] ].

Definition spaced_name_tree : Node := mkNode (lit "a b/") true 0 [].

(** The loop over [node.children] of the materializer, named, and what
    is said of two states of the filesystem: every regular file of the
    first is in the second with the same content; every directory and
    every existing path of the first is one of the second; every
    directory of a tree is there and every file path of it exists. *)
Section MaterializerNotions.
Context `{FileSystem fs}.

Fixpoint create_children (path : str) (rest : list Node) (s : fs) : option fs :=
  match rest with
  | [] => Some s
  | child :: rest' =>
      s' ← create_files_and_dirs child path s;
      create_children path rest' s'
  end.

Definition files_kept (s s' : fs) : Prop :=
  forall q c, read_file q s = Some c -> read_file q s' = Some c.

Definition entries_kept (s s' : fs) : Prop :=
  forall q,
    (is_directory q s = true -> is_directory q s' = true)
    /\ (path_exists q s = true -> path_exists q s' = true).

Fixpoint materialized (node : Node) (current_path : str) (s : fs) : Prop :=
  match node with
  | mkNode nm d _ cs =>
      let path := path_join current_path nm in
      if d then
        is_directory path s = true
        /\ (fix all (rest : list Node) : Prop :=
              match rest with
              | [] => True
              | child :: rest' => materialized child path s /\ all rest'
              end) cs
      else path_exists path s = true
  end.
End MaterializerNotions.

(** A filesystem for examples: a finite map from path names, taken
    literally, to directories and regular files. *)
Inductive fs_entry := Dir | File (content : str).

Abbreviation path_map := (gmap (list N) fs_entry).

#[export] Instance path_map_fs : FileSystem path_map.
Proof.
  refine {|
    makedirs p s :=
      match s !! p with
      | Some Dir => Some s
      | Some (File _) => None
      | None => Some (<[p := Dir]> s)
      end;
    path_exists p s :=
      match s !! p with
      | Some _ => true
      | None => false
      end;
    create_empty p s :=
      match s !! p with
      | Some Dir => None
      | _ => Some (<[p := File []]> s)
      end;
    is_directory p s :=
      match s !! p with
      | Some Dir => true
      | _ => false
      end;
    read_file p s :=
      match s !! p with
      | Some (File c) => Some c
      | _ => None
      end
  |};
  intros;
  repeat match goal with
         | H : context [match ?s !! ?p with _ => _ end] |- _ =>
             is_var s; destruct (s !! p) as [[|?]|] eqn:?; simplify_eq
         end;
  try done;
  repeat match goal with
         | |- context [<[?p := _]> _ !! ?p] => rewrite lookup_insert_eq
         | |- context [<[?p := _]> _ !! ?q] =>
             destruct (decide (p = q)) as [->|?];
             [rewrite lookup_insert_eq|rewrite lookup_insert_ne by done]
         | H : ?s !! ?p = _ |- context [?s !! ?p] => rewrite H
         end;
  try done; congruence.
Defined.

Definition kept_file_state : path_map :=
  {[ lit "./root/" := Dir; lit "./root/c" := File (lit "data") ]}.

Definition materialized_example : path_map :=
  Eval vm_compute in
    default ∅ (create_files_and_dirs expected_example_tree (lit ".") kept_file_state).


(** ** Notions for the further properties *)

(** A name as the outline parser gives it: not empty, and neither its
    first nor its last character is whitespace. *)
Definition trimmed (nm : str) : bool :=
  match nm with
  | [] => false
  | c :: _ => negb (is_space c)
  end
  && match last nm with
     | Some c => negb (is_space c)
     | None => false
     end.

Definition no_linebreak (s : str) : bool :=
  forallb (fun c => negb (is_linebreak c)) s.

(** ** Notions for the trees the builder gives *)

(** The record a node stands for, and the records of a tree in
    pre-order. *)
Definition node_record (n : Node) : entry := (name n, level n).

Definition tree_records (t : Node) : list entry :=
  map node_record (preorder t).

(** The records at the head of a list that are deeper than [lv0]. *)
Fixpoint deeper_run (lv0 : Z) (es : list entry) : list entry :=
  match es with
  | [] => []
  | e :: es' => if lv0 <? e.2 then e :: deeper_run lv0 es' else []
  end.

(** Siblings whose levels never rise from one to the next. *)
Fixpoint falling (cs : list Node) : bool :=
  match cs with
  | c1 :: cs' =>
      match cs' with
      | c2 :: _ => (level c2 <=? level c1) && falling cs'
      | [] => true
      end
  | [] => true
  end.

(** A tree as the builder makes them below the root: a node is flagged a
    directory exactly when its name ends in [/], every child is deeper
    than its parent, and the levels of siblings never rise. At the root
    the flag is set whatever the name. *)
Fixpoint well_built (t : Node) : bool :=
  match t with
  | mkNode nm d lv cs =>
      Bool.eqb d (endswith nm [SLASH])
      && forallb (fun c => (lv <? level c) && well_built c) cs
      && falling cs
  end.

Definition well_built_root (t : Node) : bool :=
  is_dir t
  && forallb (fun c => (level t <? level c) && well_built c) (children t)
  && falling (children t).

(** The cells of a tree in the store, in pre-order from the reference
    [n] on, with the flags and levels of its nodes. *)
Fixpoint layout (n : nat) (t : Node) : list cell :=
  match t with
  | mkNode nm d lv cs =>
      mkCell nm d lv (child_ids (S n) cs)
      :: (fix forest (m : nat) (rest : list Node) : list cell :=
            match rest with
            | [] => []
            | c :: rest' =>
                layout m c ++ forest (m + length (preorder c))%nat rest'
            end) (S n) cs
  end.

Fixpoint forest_layout (m : nat) (rest : list Node) : list cell :=
  match rest with
  | [] => []
  | c :: rest' =>
      layout m c ++ forest_layout (m + length (preorder c))%nat rest'
  end.

(** Reading the records of a well-built tree, or of a row of them, below
    the node [p]. *)
Definition builds_tree (t : Node) : Prop :=
  well_built t = true ->
  forall h extra p rest,
    below h (level t) p extra ->
    exists extra',
      foldl build_step (h, extra ++ p :: rest) (tree_records t)
      = (alter (push_children [length h]) p h ++ layout (length h) t,
         extra' ++ p :: rest)
      /\ below (alter (push_children [length h]) p h ++ layout (length h) t)
           (level t) p extra'.

Definition above (h : heap) (p : nat) (extra : list nat) : Prop :=
  Forall (fun q => (q < length h)%nat /\ level_of h p < level_of h q) extra.

Definition builds_forest (ts : list Node) : Prop :=
  Forall (fun c => well_built c = true) ts ->
  falling ts = true ->
  forall h extra p rest,
    (p < length h)%nat ->
    Forall (fun c => level_of h p < level c) ts ->
    above h p extra ->
    match ts with
    | c :: _ => Forall (fun q => level c <= level_of h q) extra
    | [] => True
    end ->
    exists extra',
      foldl build_step (h, extra ++ p :: rest) (flat_map tree_records ts)
      = (alter (push_children (child_ids (length h) ts)) p h
         ++ forest_layout (length h) ts,
         extra' ++ p :: rest)
      /\ above (alter (push_children (child_ids (length h) ts)) p h
                ++ forest_layout (length h) ts) p extra'.

(** Reading the cells of a tree, wherever they lie in the store, gives
    the tree. *)
Definition reads_layout (t : Node) : Prop :=
  forall n (before after : heap) fuel,
    length before = n ->
    (length (preorder t) <= fuel)%nat ->
    read_node fuel (before ++ layout n t ++ after) n = Some t.

(** The tree with one more leaf, put where the builder attaches a record
    of that level: below the last child as long as the last child is less
    deep than the leaf, else as a new last child. *)
Section Attach.
Variable leaf : Node.

Fixpoint attach (t : Node) : Node :=
  match t with
  | mkNode nm d lv cs =>
      mkNode nm d lv
        ((fix go (rest : list Node) : list Node :=
            match rest with
            | [] => [leaf]
            | c :: rest' =>
                match rest' with
                | [] => if level c <? level leaf then [attach c] else [c; leaf]
                | _ :: _ => c :: go rest'
                end
            end) cs)
  end.

Fixpoint attach_last (rest : list Node) : list Node :=
  match rest with
  | [] => [leaf]
  | c :: rest' =>
      match rest' with
      | [] => if level c <? level leaf then [attach c] else [c; leaf]
      | _ :: _ => c :: attach_last rest'
      end
  end.
End Attach.

Definition leaf_of (e : entry) : Node :=
  mkNode e.1 (endswith e.1 [SLASH]) e.2 [].

(** The tree of a root record and the records of a run deeper than it. *)
Definition unflatten (e0 : entry) (run : list entry) : Node :=
  foldl (fun t e => attach (leaf_of e) t) (mkNode e0.1 true e0.2 []) run.

(** The tree as its outline reads: the root at level 0 and every other
    level multiplied by the four spaces of the indentation unit. *)
Fixpoint scale_levels (k : Z) (t : Node) : Node :=
  match t with
  | mkNode nm d lv cs => mkNode nm d (k * lv) (map (scale_levels k) cs)
  end.

Definition respaced (t : Node) : Node :=
  mkNode (name t) (is_dir t) 0 (map (scale_levels 4) (children t)).

Definition outline_text_line (e : entry) : str :=
  repeat_str (lit "    ") e.2 ++ e.1.

(** ** The callers *)

(** What [construct_markdown_structure] and [construct_tree_structre]
    return: the empty string when there is no record, else what
    [build_tree] returned, a node or [None]. *)
Inductive structure := EmptyString | NoNode | BuiltNode (r : heap * nat).

Definition construct_markdown_structure (markdown_text : str) : structure :=
  let entries := parse_markdown markdown_text in
  match entries with
  | [] => EmptyString
  | _ :: _ =>
      match build_tree entries with
      | Some r => BuiltNode r
      | None => NoNode
      end
  end.

Definition construct_tree_structre (tree_text : str) : structure :=
  let entries := parse_tree_text tree_text in
  match entries with
  | [] => EmptyString
  | _ :: _ =>
      match build_tree entries with
      | Some r => BuiltNode r
      | None => NoNode
      end
  end.

(** How [main] ends once the input file is read: with the message that
    the input type was not detected, with the [AttributeError] of
    reading [.name] off a value that is no node, with an [OSError] of
    the materializer, or with the directory structure created. *)
Inductive outcome (fs : Type) :=
  | NotDetected
  | AttributeError
  | OsError
  | Created (s : fs).

Arguments NotDetected {fs}.
Arguments AttributeError {fs}.
Arguments OsError {fs}.
Arguments Created {fs} s.

Section Main.
Context `{FileSystem fs}.

(** [main] from the call of [detect_input_type] on; [file_extension] is
    the extension of the input file's name and [input_text] its content.
    The result is [None] only if the store could not be read as a
    tree. *)
Definition main_after_read (file_extension input_text root_dir : str) (s : fs)
    : option (outcome fs) :=
  match detect_input_type input_text file_extension with
  | None => Some NotDetected
  | Some input_type =>
      let tree :=
        match input_type with
        | markdown => construct_markdown_structure input_text
        | tree => construct_tree_structre input_text
        end in
      match tree with
      | EmptyString | NoNode => Some AttributeError
      | BuiltNode r =>
          t ← read_tree r;
          Some match create_files_and_dirs t root_dir s with
               | Some s' => Created s'
               | None => OsError
               end
      end
  end.

End Main.

(** The records [main] builds the tree from. *)
Definition entries_of (ty : input_type) (input_text : str) : list entry :=
  match ty with
  | markdown => parse_markdown input_text
  | tree => parse_tree_text input_text
  end.

Definition blank_text : str := lit "   " ++ [NEWLINE; NEWLINE] ++ lit "  ".

Definition directory_example_diagram : str :=
  Eval vm_compute in generate_tree_text (Some directory_example_tree).

Definition empty_state : path_map := ∅.

Definition materialized_dir_below_file : path_map :=
  Eval vm_compute in
    default ∅ (create_files_and_dirs
                 (mkNode (lit "r/") true 0
                    [ mkNode (lit "b") false 4 [ mkNode (lit "d/") true 8 [] ] ])
                 (lit ".") ∅).

(** ** Notions for calls and for the walk of the materializer *)

(** How a call ends: it returns a value or raises an exception. *)
Inductive completion (A : Type) :=
  | Returns (v : A)
  | Raises (error : str).

Arguments Returns {A} v.
Arguments Raises {A} error.

(** The call [build_tree(entries)]. The body has no [raise]: the empty
    list takes the early [return None]; any other list is indexed at 0,
    which it has, and the loop only reads and extends nodes it made
    itself. Every call returns. *)
Definition build_tree_call (entries : list entry)
    : completion (option (heap * nat)) :=
  Returns (build_tree entries).

(** The part of a tree the materializer walks: everything below a file
    node is cut off. *)
Fixpoint visited_part (t : Node) : Node :=
  match t with
  | mkNode nm d lv cs =>
      mkNode nm d lv (if d then map visited_part cs else [])
  end.

Definition dir_below_file_outline : str :=
  lit "r/" ++ [NEWLINE] ++ lit "    b" ++ [NEWLINE]
  ++ lit "        d/" ++ [NEWLINE].

Definition dir_below_file_tree : Node :=
  mkNode (lit "r/") true 0
    [ mkNode (lit "b") false 4 [ mkNode (lit "d/") true 8 [] ] ].

(** * Properties *)

(** ** The tree builder *)

Lemma build_tree_nonempty (e : entry) (es : list entry) :
  is_Some (build_tree (e :: es)).
Proof. destruct e as [nm lv]. simpl. eauto. Qed.

(** [build_tree] applied to the empty record sequence gives no tree: it
    returns [None], and nothing can be read off the result. *)
Theorem build_tree_empty_input :
  build_tree [] = None /\ build_tree [] ≫= read_tree = None.
Proof. split; reflexivity. Qed.

Lemma pop_while_split (h : heap) (lv : Z) (stack : list nat) :
  exists popped,
    stack = popped ++ pop_while h lv stack
    /\ Forall (fun p => lv <= level_of h p) popped
    /\ match pop_while h lv stack with
       | top :: _ => level_of h top < lv
       | [] => True
       end.
Proof.
  induction stack as [|top rest IH]; simpl.
  - exists []. auto.
  - destruct (Z.leb_spec lv (level_of h top)) as [Hle|Hlt].
    + destruct IH as (popped & Heq & Hall & Htop).
      exists (top :: popped). split; [simpl; congruence|].
      split; [constructor; assumption|assumption].
    + exists []. auto.
Qed.

(** C3: for the outline [root/], [    a/], [        b], [    c] the built
    tree is root -> [a/, c], a/ -> [b], with b and c files and a/ and the
    root directories; and one step of the builder pops exactly the stack
    entries whose level is at least the record's level, attaches the new
    node to the entry that is then on top, and pushes it. *)
Theorem depth_stack_attachment (h : heap) (stack : list nat) (nm : str) (lv : Z) :
  tree_of_markdown outline_example = Some expected_example_tree
  /\ exists popped kept,
       let h1 := h ++ [new_cell nm (endswith nm [SLASH]) lv] in
       stack = popped ++ kept
       /\ Forall (fun p => lv <= level_of h1 p) popped
       /\ match kept with
          | top :: _ =>
              level_of h1 top < lv
              /\ build_step (h, stack) (nm, lv)
                 = (add_child h1 top (length h), length h :: kept)
          | [] => build_step (h, stack) (nm, lv) = (h1, [length h])
          end.
Proof.
  split; [vm_compute; reflexivity|].
  set (h1 := h ++ [new_cell nm (endswith nm [SLASH]) lv]).
  destruct (pop_while_split h1 lv stack) as (popped & Heq & Hall & Htop).
  exists popped, (pop_while h1 lv stack). simpl.
  split; [exact Heq|]. split; [exact Hall|].
  unfold build_step. fold h1.
  destruct (pop_while h1 lv stack) as [|top kept]; [reflexivity|].
  split; [exact Htop|reflexivity].
Qed.

Lemma fmap_add_child {B} (f : cell -> B) (h : heap) (p n : nat) :
  (forall c, f (push_child n c) = f c) ->
  f <$> add_child h p n = f <$> h.
Proof.
  intros Hf. unfold add_child.
  rewrite (list_fmap_alter f (push_child n) id).
  - apply list_alter_id. reflexivity.
  - apply Forall_forall. intros c _. apply Hf.
Qed.

Lemma build_step_cells (st : heap * list nat) (nm : str) (lv : Z) :
  cell_entry <$> (build_step st (nm, lv)).1 = (cell_entry <$> st.1) ++ [(nm, lv)]
  /\ c_is_dir <$> (build_step st (nm, lv)).1
     = (c_is_dir <$> st.1) ++ [endswith nm [SLASH]].
Proof.
  destruct st as [h stack]. unfold build_step. simpl.
  destruct (pop_while _ lv stack) as [|top kept]; simpl;
    rewrite ?fmap_add_child by reflexivity;
    rewrite !fmap_app; auto.
Qed.

Lemma foldl_build_step_cells (es : list entry) (st : heap * list nat) :
  cell_entry <$> (foldl build_step st es).1 = (cell_entry <$> st.1) ++ es
  /\ c_is_dir <$> (foldl build_step st es).1
     = (c_is_dir <$> st.1) ++ ((fun e => endswith e.1 [SLASH]) <$> es).
Proof.
  revert st. induction es as [|[nm lv] es IH]; intros st; simpl.
  - rewrite !app_nil_r. auto.
  - destruct (IH (build_step st (nm, lv))) as [IH1 IH2].
    destruct (build_step_cells st nm lv) as [S1 S2].
    rewrite IH1, IH2, S1, S2, <- !app_assoc. auto.
Qed.

(** C4 (as the code has it): the builder stores every record's name
    unchanged, a trailing [/] included, with its level; the root is
    flagged a directory and every other node is flagged by whether its
    name ends in [/]. The renderer of tree diagrams removes the last
    character of the stored name and appends [/] for a directory, so a
    directory stored as [stem/] is rendered as [stem/]. *)
Theorem names_stored_verbatim
    (entries : list entry) (stem : str) (lv : Z) (cs : list Node) :
  match build_tree entries with
  | None => entries = []
  | Some (h, root) =>
      root = 0%nat
      /\ cell_entry <$> h = entries
      /\ c_is_dir <$> h
         = true :: ((fun e => endswith e.1 [SLASH]) <$> tail entries)
  end
  /\ rendered_name (mkNode (stem ++ [SLASH]) true lv cs) = stem ++ [SLASH].
Proof.
  split.
  - destruct entries as [|[nm0 lv0] rest]; [reflexivity|]. simpl.
    destruct (foldl_build_step_cells rest ([new_cell nm0 true lv0], [0%nat]))
      as [H1 H2].
    auto.
  - unfold rendered_name, drop_last. simpl.
    rewrite removelast_last. reflexivity.
Qed.

(** C4, counterexample: the node built from the record [a/] stores the
    name [a/], which still ends in [/] and is not the stripped name. *)
Lemma stored_name_keeps_slash :
  exists h c,
    build_tree [(lit "r/", 0); (lit "a/", 4)] = Some (h, 0%nat)
    /\ h !! 1%nat = Some c
    /\ c_name c = lit "a/"
    /\ endswith (c_name c) [SLASH] = true
    /\ c_name c <> drop_last (lit "a/").
Proof.
  eexists _, _. split; [vm_compute; reflexivity|].
  split; [reflexivity|]. repeat split. discriminate.
Qed.

Lemma level_of_app_l (h h' : heap) (i : nat) :
  (i < length h)%nat -> level_of (h ++ h') i = level_of h i.
Proof. intros Hi. unfold level_of. rewrite lookup_app_l by exact Hi. reflexivity. Qed.

Lemma level_of_snoc (h : heap) (c : cell) :
  level_of (h ++ [c]) (length h) = c_level c.
Proof.
  unfold level_of. rewrite lookup_app_r by lia.
  rewrite Nat.sub_diag. reflexivity.
Qed.

Lemma level_of_add_child (h : heap) (p n i : nat) :
  level_of (add_child h p n) i = level_of h i.
Proof.
  unfold level_of, add_child.
  destruct (decide (p = i)) as [->|Hne].
  - rewrite list_lookup_alter_eq. destruct (h !! i); reflexivity.
  - rewrite list_lookup_alter_ne by exact Hne. reflexivity.
Qed.

Lemma children_of_app_l (h h' : heap) (i : nat) :
  (i < length h)%nat -> children_of (h ++ h') i = children_of h i.
Proof. intros Hi. unfold children_of. rewrite lookup_app_l by exact Hi. reflexivity. Qed.

Lemma children_of_snoc (h : heap) (c : cell) :
  children_of (h ++ [c]) (length h) = c_children c.
Proof.
  unfold children_of. rewrite lookup_app_r by lia.
  rewrite Nat.sub_diag. reflexivity.
Qed.

Lemma children_of_add_child_eq (h : heap) (p n : nat) :
  (p < length h)%nat ->
  children_of (add_child h p n) p = children_of h p ++ [n].
Proof.
  intros Hp. unfold children_of, add_child.
  rewrite list_lookup_alter_eq.
  destruct (lookup_lt_is_Some_2 h p Hp) as [c ->]. reflexivity.
Qed.

Lemma children_of_add_child_ne (h : heap) (p n i : nat) :
  p <> i -> children_of (add_child h p n) i = children_of h i.
Proof.
  intros Hne. unfold children_of, add_child.
  rewrite list_lookup_alter_ne by exact Hne. reflexivity.
Qed.

Lemma pop_while_subset (h : heap) (lv : Z) (stack : list nat) (x : nat) :
  x ∈ pop_while h lv stack -> x ∈ stack.
Proof.
  induction stack as [|top rest IH]; simpl; [auto|].
  destruct (lv <=? level_of h top); [|auto].
  intros Hx. apply elem_of_cons. right. auto.
Qed.

Lemma build_step_inv (st : heap * list nat) (e : entry) :
  build_inv st -> build_inv (build_step st e).
Proof.
  destruct st as [h stack], e as [nm lv].
  intros (k & rest & Hlen & Hstk & Hlt & Hkids & Htop & Hdeep).
  simpl in Hlen, Hstk, Hkids, Htop, Hdeep. subst stack.
  unfold build_step.
  set (cnew := new_cell nm (endswith nm [SLASH]) lv).
  set (h1 := h ++ [cnew]).
  assert (Hlv1 : forall i, (i <= k)%nat -> level_of h1 i = level_of h i).
  { intros i Hi. apply level_of_app_l. lia. }
  assert (Hlvn : level_of h1 (S k) = lv).
  { unfold h1. rewrite <- Hlen. apply level_of_snoc. }
  assert (Hch1 : forall i, (i <= k)%nat -> children_of h1 i = children_of h i).
  { intros i Hi. apply children_of_app_l. lia. }
  assert (Hchn : children_of h1 (S k) = []).
  { unfold h1. rewrite <- Hlen. apply children_of_snoc. }
  assert (Hlen1 : length h1 = S (S k)).
  { unfold h1. rewrite length_app. simpl. lia. }
  simpl pop_while. rewrite (Hlv1 k) by lia.
  destruct (Z.leb_spec lv (level_of h k)) as [Hle|Hgt].
  - (* the previous node is popped *)
    pose proof (pop_while_subset h1 lv rest) as Hsub.
    assert (Hkept : Forall (fun i => (i < S k)%nat) (pop_while h1 lv rest)).
    { apply Forall_forall. intros x Hx. apply Hsub in Hx.
      rewrite Forall_forall in Hlt. specialize (Hlt x Hx). lia. }
    destruct (pop_while h1 lv rest) as [|top kept] eqn:Hpop.
    + exists (S k), []. simpl. rewrite Hlen.
      split; [exact Hlen1|]. split; [reflexivity|]. split; [constructor|].
      split; [|split; [exact Hchn|]].
      * intros i Hi. destruct (decide (i = k)) as [->|Hne].
        -- rewrite Hch1, Hlvn, Hlv1 by lia. tauto.
        -- rewrite Hch1, !Hlv1 by lia. apply Hkids. lia.
      * intros i Hi. apply elem_of_nil in Hi. contradiction.
    + assert (Htoprest : top ∈ rest).
      { apply Hsub. apply elem_of_cons. auto. }
      assert (Htk : (top < k)%nat).
      { rewrite Forall_forall in Hlt. auto. }
      exists (S k), (top :: kept). simpl. rewrite Hlen.
      split; [unfold add_child; rewrite length_alter; exact Hlen1|].
      split; [reflexivity|]. split; [exact Hkept|].
      split; [|split].
      * intros i Hi. rewrite !level_of_add_child.
        destruct (decide (top = i)) as [->|Hne].
        -- rewrite children_of_add_child_eq by lia.
           rewrite !Hlv1 by lia. specialize (Hdeep i Htoprest).
           split; [intros Hnil; destruct (children_of h1 i); discriminate|lia].
        -- rewrite children_of_add_child_ne by exact Hne.
           destruct (decide (i = k)) as [->|Hnk].
           ++ rewrite Hch1, Hlvn, Hlv1 by lia. tauto.
           ++ rewrite Hch1, !Hlv1 by lia. apply Hkids. lia.
      * rewrite children_of_add_child_ne by lia. exact Hchn.
      * intros i Hi. rewrite !level_of_add_child.
        assert (Hir : i ∈ rest) by (apply Hsub; exact Hi).
        assert (Hik : (i < k)%nat) by (rewrite Forall_forall in Hlt; auto).
        rewrite !Hlv1 by lia. apply Hdeep. exact Hir.
  - (* the previous node stays and becomes the parent *)
    exists (S k), (k :: rest). simpl. rewrite Hlen.
    split; [unfold add_child; rewrite length_alter; exact Hlen1|].
    split; [reflexivity|].
    split; [constructor; [lia|eapply Forall_impl; [exact Hlt|simpl; lia]]|].
    split; [|split].
    + intros i Hi. rewrite !level_of_add_child.
      destruct (decide (i = k)) as [->|Hne].
      * rewrite children_of_add_child_eq by lia. rewrite Hlvn, Hlv1 by lia.
        split; [intros Hnil; destruct (children_of h1 k); discriminate|lia].
      * rewrite children_of_add_child_ne by lia.
        rewrite Hch1, !Hlv1 by lia. apply Hkids. lia.
    + rewrite children_of_add_child_ne by lia. exact Hchn.
    + intros i Hi. rewrite !level_of_add_child.
      apply elem_of_cons in Hi as [->|Hi].
      * rewrite Hlvn, Hlv1 by lia. lia.
      * assert (Hik : (i < k)%nat) by (rewrite Forall_forall in Hlt; auto).
        rewrite !Hlv1 by lia. apply Hdeep. exact Hi.
Qed.

Lemma build_inv_init (nm : str) (lv : Z) :
  build_inv ([new_cell nm true lv], [0%nat]).
Proof.
  exists 0%nat, []. simpl. split; [reflexivity|]. split; [reflexivity|].
  split; [constructor|]. split; [intros i Hi; lia|].
  split; [reflexivity|]. intros i Hi. apply elem_of_nil in Hi. contradiction.
Qed.

Lemma foldl_build_step_inv (es : list entry) (st : heap * list nat) :
  build_inv st -> build_inv (foldl build_step st es).
Proof.
  revert st. induction es as [|e es IH]; intros st Hst; simpl; [exact Hst|].
  apply IH, build_step_inv, Hst.
Qed.

(** C8 (as the code has it): a node of the built tree, file or directory,
    has no children exactly when its record is the last one or the record
    right after it is not deeper; a file node followed by a deeper record
    does acquire that record's node as a child. *)
Theorem childless_iff_next_not_deeper
    (entries : list entry) (h : heap) (root i : nat) (c : cell) :
  build_tree entries = Some (h, root) ->
  h !! i = Some c ->
  (c_children c = [] <->
   match entries !! S i with
   | Some e => e.2 <= c_level c
   | None => True
   end).
Proof.
  intros Hbuild Hc.
  destruct entries as [|[nm0 lv0] rest]; [discriminate|].
  simpl in Hbuild. injection Hbuild as Hh _.
  pose proof (foldl_build_step_inv rest _ (build_inv_init nm0 lv0)) as Hinv.
  destruct (foldl_build_step_cells rest ([new_cell nm0 true lv0], [0%nat]))
    as [Hcells _].
  destruct (foldl build_step _ rest) as [h' stk']. simpl in Hh. subst h'.
  change (cell_entry <$> h = (nm0, lv0) :: rest) in Hcells.
  destruct Hinv as (k & stk & Hlen & _ & _ & Hkids & Htop & _).
  simpl in Hlen, Hkids, Htop.
  assert (Hlv : forall j, level_of h j
                = match ((nm0, lv0) :: rest) !! j with
                  | Some e => e.2 | None => 0 end).
  { intros j. rewrite <- Hcells, list_lookup_fmap. unfold level_of.
    destruct (h !! j); reflexivity. }
  assert (Hci : children_of h i = c_children c).
  { unfold children_of. rewrite Hc. reflexivity. }
  assert (Hli : level_of h i = c_level c).
  { unfold level_of. rewrite Hc. reflexivity. }
  pose proof (lookup_lt_Some _ _ _ Hc) as Hik.
  destruct (decide (i = k)) as [->|Hne].
  - rewrite <- Hci, Htop.
    assert (Hnone : ((nm0, lv0) :: rest) !! S k = None).
    { apply lookup_ge_None_2. rewrite <- Hcells, length_fmap. lia. }
    rewrite Hnone. tauto.
  - assert (Hlt : (i < k)%nat) by lia.
    specialize (Hkids i Hlt). rewrite Hci, Hli, Hlv in Hkids.
    assert (Hsome : is_Some (((nm0, lv0) :: rest) !! S i)).
    { apply lookup_lt_is_Some_2. rewrite <- Hcells, length_fmap. lia. }
    destruct Hsome as [e He]. rewrite He in Hkids |- *. exact Hkids.
Qed.

Lemma childless_iff_next_not_deeper_witness :
  c_children (mkCell (lit "b") false 8 []) = [] <->
  match example_entries !! 3%nat with
  | Some e => e.2 <= 8
  | None => True
  end.
Proof.
  apply (childless_iff_next_not_deeper example_entries example_heap 0%nat 2%nat);
    reflexivity.
Defined.

(** C8, counterexample: in the tree built from [r/], [    b], [        c]
    the node [b] is not the root, is a file, and has the child [c]. *)
Lemma file_node_with_child :
  tree_of_markdown file_with_child_outline
  = Some (mkNode (lit "r/") true 0
            [ mkNode (lit "b") false 4 [ mkNode (lit "c") false 8 [] ] ]).
Proof. vm_compute. reflexivity. Qed.

(** ** The tree-diagram parser *)

Lemma count_spaces_nonneg (line : str) : 0 <= count_spaces line.
Proof.
  induction line as [|c line IH]; simpl; [lia|].
  destruct (c =? SPACE)%N; lia.
Qed.

Lemma scan_line_level (line : str) (n i lv ns ci : Z) :
  0 < n -> 0 <= ci < n ->
  (scan_line n i line lv ns ci).1 = lv + (ci + count_spaces line) / n.
Proof.
  intros Hn. revert i lv ns ci.
  induction line as [|c line IH]; intros i lv ns ci Hci; simpl.
  - rewrite Z.add_0_r, Z.div_small by lia. lia.
  - destruct (c =? SPACE)%N.
    + destruct (Z.eqb_spec (ci + 1) n) as [Heq|Hne].
      * rewrite IH by lia.
        replace (ci + (1 + count_spaces line))
          with (count_spaces line + 1 * n) by lia.
        rewrite Z.div_add, Z.add_0_l by lia. lia.
      * rewrite IH by lia. f_equal. f_equal. lia.
    + rewrite IH by lia. reflexivity.
Qed.

Lemma scan_line_level_zero (line : str) (i lv ns ci : Z) :
  0 <= ci -> (scan_line 0 i line lv ns ci).1 = lv.
Proof.
  revert i lv ns ci.
  induction line as [|c line IH]; intros i lv ns ci Hci; simpl; [reflexivity|].
  destruct (c =? SPACE)%N; [|apply IH; lia].
  destruct (Z.eqb_spec (ci + 1) 0) as [Heq|Hne]; [lia|apply IH; lia].
Qed.

Lemma name_part_length (line : str) :
  (length (name_part line) <= length line)%nat.
Proof.
  induction line as [|c line IH]; simpl; [lia|].
  destruct (is_tree_char c || existsb is_tree_char line); simpl; lia.
Qed.

Lemma scan_line_name_start (line : str) (n i lv ns ci : Z) :
  (scan_line n i line lv ns ci).2
  = if existsb is_tree_char line
    then i + Z.of_nat (length line) - Z.of_nat (length (name_part line))
    else ns.
Proof.
  revert i lv ns ci.
  induction line as [|c line IH]; intros i lv ns ci; simpl; [reflexivity|].
  assert (Hrec : forall lv' ci',
    (scan_line n (i + 1) line lv' (if is_tree_char c then i + 1 else ns) ci').2
    = if is_tree_char c || existsb is_tree_char line
      then i + Z.of_nat (S (length line))
           - Z.of_nat (length (if is_tree_char c || existsb is_tree_char line
                               then name_part line else c :: line))
      else ns).
  { intros lv' ci'. rewrite IH.
    destruct (existsb is_tree_char line) eqn:Hex.
    - rewrite orb_true_r. lia.
    - rewrite orb_false_r. destruct (is_tree_char c) eqn:Hc; [|reflexivity].
      assert (Hnp : name_part line = line).
      { clear -Hex. induction line as [|a l IHl]; [reflexivity|].
        simpl in Hex |- *. apply orb_false_iff in Hex as [Ha Hl].
        rewrite Ha, Hl. reflexivity. }
      rewrite Hnp. lia. }
  destruct (c =? SPACE)%N; [destruct (ci + 1 =? n)|]; apply Hrec.
Qed.

Lemma name_part_suffix (line : str) :
  drop (length line - length (name_part line)) line = name_part line.
Proof.
  induction line as [|c line IH]; [reflexivity|]. simpl name_part.
  destruct (is_tree_char c || existsb is_tree_char line).
  - pose proof (name_part_length line).
    replace (length (c :: line) - length (name_part line))%nat
      with (S (length line - length (name_part line))) by (simpl; lia).
    simpl. exact IH.
  - rewrite Nat.sub_diag. reflexivity.
Qed.

Lemma glyph_level_bump (line : str) (lv : Z) :
  glyph_level line lv = lv + (if existsb is_branch_glyph line then 1 else 0).
Proof.
  induction line as [|c line IH]; simpl; [lia|].
  destruct (is_branch_glyph c); simpl; [reflexivity|exact IH].
Qed.

Lemma tree_entry_diagram_entry (n : nat) (line : str) :
  tree_entry (Z.of_nat n) line = diagram_entry (Z.of_nat n) line.
Proof.
  unfold tree_entry, diagram_entry.
  pose proof (scan_line_name_start line (Z.of_nat n) 0 0 0 0) as Hns.
  assert (Hlv : (scan_line (Z.of_nat n) 0 line 0 0 0).1
                = count_spaces line / Z.of_nat n).
  { destruct n as [|n].
    - simpl. rewrite scan_line_level_zero by lia. symmetry. apply Z.div_0_r.
    - rewrite scan_line_level by lia. reflexivity. }
  destruct (scan_line (Z.of_nat n) 0 line 0 0 0) as [lv ns].
  simpl in Hns, Hlv. subst lv. rewrite glyph_level_bump. f_equal. f_equal.
  rewrite Hns. destruct (existsb is_tree_char line) eqn:Hex.
  - pose proof (name_part_length line).
    replace (Z.to_nat (0 + Z.of_nat (length line)
                       - Z.of_nat (length (name_part line))))
      with (length line - length (name_part line))%nat by lia.
    apply name_part_suffix.
  - simpl. clear -Hex. induction line as [|a l IHl]; [reflexivity|].
    simpl in Hex |- *. apply orb_false_iff in Hex as [Ha Hl].
    rewrite Ha, Hl. reflexivity.
Qed.

Lemma parse_tree_lines_diagram (n : nat) (lines : list str) :
  parse_tree_lines (Z.of_nat n) lines
  = diagram_entry (Z.of_nat n) <$> filter (fun l => l <> []) (rstrip <$> lines).
Proof.
  induction lines as [|l lines IH]; [reflexivity|].
  rewrite fmap_cons, filter_cons. cbn [parse_tree_lines].
  destruct (rstrip l) as [|c line] eqn:Hl.
  - destruct (decide ([] <> [])) as [Hne|_]; [congruence|exact IH].
  - destruct (decide (c :: line <> [])) as [_|He]; [|exfalso; apply He; discriminate].
    rewrite fmap_cons, <- IH, tree_entry_diagram_entry. reflexivity.
Qed.

(** What [name_part] is: the line splits into a part that is empty or
    ends in a space or tree-drawing character, and a rest without any. *)
Lemma name_part_spec (line : str) :
  exists pre,
    line = pre ++ name_part line
    /\ forallb (fun c => negb (is_tree_char c)) (name_part line) = true
    /\ match last pre with
       | Some c => is_tree_char c = true
       | None => True
       end.
Proof.
  induction line as [|c line (pre & Heq & Hfree & Hlast)].
  - exists []. repeat split.
  - simpl name_part.
    destruct (is_tree_char c) eqn:Hc; simpl.
    + exists (c :: pre). split; [simpl; congruence|]. split; [exact Hfree|].
      destruct pre as [|a pre]; [exact Hc|]. exact Hlast.
    + destruct (existsb is_tree_char line) eqn:Hex.
      * exists (c :: pre). split; [simpl; congruence|]. split; [exact Hfree|].
        destruct pre as [|a pre]; [|exact Hlast].
        simpl in Heq. rewrite <- Heq in Hfree.
        exfalso. clear -Hex Hfree.
        induction line as [|a l IHl]; [discriminate|].
        simpl in Hex, Hfree. apply andb_true_iff in Hfree as [Ha Hl].
        destruct (is_tree_char a); [discriminate|]. auto.
      * exists []. split; [reflexivity|]. split; [|exact I].
        simpl. rewrite Hc. simpl. clear -Hex.
        induction line as [|a l IHl]; [reflexivity|].
        simpl in Hex |- *. apply orb_false_iff in Hex as [Ha Hl].
        rewrite Ha. simpl. auto.
Qed.

(** C6: for every line, the record of the tree-diagram parser has as its
    depth the number of plain spaces divided by the length of the
    indentation unit (the number of times the running count reaches that
    length), plus one if the line contains a vertical or branch glyph,
    and as its name the trimmed part of the line after its last space or
    tree-drawing character; the parser gives this record for every line
    that is not blank once its trailing whitespace is removed. *)
Theorem tree_diagram_line_record (indent_str : str) (lines : list str) (line : str) :
  let indent_len := Z.of_nat (length indent_str) in
  tree_entry indent_len line
  = (strip (name_part line),
     count_spaces line / indent_len
     + (if existsb is_branch_glyph line then 1 else 0))
  /\ parse_tree_lines indent_len lines
     = tree_entry indent_len <$> filter (fun l => l <> []) (rstrip <$> lines).
Proof.
  simpl. split.
  - apply tree_entry_diagram_entry.
  - rewrite parse_tree_lines_diagram. apply list_fmap_ext.
    intros i l _. symmetry. apply tree_entry_diagram_entry.
Qed.

(** ** The outline renderer *)

Lemma generate_markdown_recursive_unfold (nm : str) (d : bool) (lv0 : Z)
    (cs : list Node) (lv : Z) :
  generate_markdown_recursive (mkNode nm d lv0 cs) lv
  = (if lv =? -1 then [] else repeat_str (lit "    ") lv ++ nm ++ [NEWLINE])
    ++ markdown_children cs.
Proof.
  reflexivity.
Qed.

Lemma preorder_unfold (t : Node) :
  preorder t = t :: flat_map preorder (children t).
Proof. destruct t. reflexivity. Qed.

Lemma generate_markdown_recursive_lines (t : Node) (lv : Z) :
  lv <> -1 ->
  no_hidden_node t = true ->
  generate_markdown_recursive t lv
  = (repeat_str (lit "    ") lv ++ name t ++ [NEWLINE])
    ++ concat (outline_line <$> flat_map preorder (children t)).
Proof.
  revert lv. induction t as [nm d lv0 cs IH] using Node_ind.
  intros lv Hlv Hvis.
  rewrite generate_markdown_recursive_unfold.
  destruct (Z.eqb_spec lv (-1)) as [|_]; [contradiction|].
  f_equal. cbn [children]. simpl in Hvis.
  induction cs as [|c cs IHcs]; [reflexivity|].
  apply Forall_cons in IH as [IHc IH].
  simpl in Hvis. apply andb_true_iff in Hvis as [Hc Hcs].
  apply andb_true_iff in Hc as [Hc1 Hc2].
  apply negb_true_iff in Hc1. apply Z.eqb_neq in Hc1.
  cbn [markdown_children flat_map]. rewrite fmap_app, concat_app.
  rewrite (IHcs IH Hcs), (IHc (level c) Hc1 Hc2), (preorder_unfold c).
  reflexivity.
Qed.

(** The outline parser gives no negative level, so no tree built from an
    outline carries the level [-1]. *)
Lemma leading_spaces_nonneg (line : str) : 0 <= leading_spaces line.
Proof.
  induction line as [|c line IH]; simpl; [lia|].
  destruct (c =? SPACE)%N; lia.
Qed.

Lemma parse_markdown_levels_nonneg (text : str) :
  Forall (fun e : entry => 0 <= e.2) (parse_markdown text).
Proof.
  unfold parse_markdown. induction (splitlines text) as [|l ls IH]; simpl.
  - constructor.
  - destruct (rstrip l) as [|c line]; [exact IH|].
    constructor; [|exact IH]. apply leading_spaces_nonneg.
Qed.

(** For a tree in which no node below the root carries the level [-1],
    the outline is one line per node in pre-order: the root's name with
    no indentation, then for every other node four spaces repeated as
    many times as its own stored level, followed by its name. *)
Theorem outline_is_projection_of_levels (t : Node) :
  no_hidden_node t = true ->
  generate_markdown (Some t)
  = (name t ++ [NEWLINE])
    ++ concat (outline_line <$> flat_map preorder (children t)).
Proof.
  intros Hvis. simpl.
  rewrite generate_markdown_recursive_lines by (auto; discriminate).
  reflexivity.
Qed.

Lemma outline_is_projection_of_levels_witness :
  generate_markdown (Some expected_example_tree)
  = (name expected_example_tree ++ [NEWLINE])
    ++ concat (outline_line <$> flat_map preorder (children expected_example_tree)).
Proof.
  apply (outline_is_projection_of_levels expected_example_tree). reflexivity.
Defined.

(** Outside the data model, where a depth is never negative: a child
    whose stored level is [-1] meets the guard of the renderer and gets
    no line. *)
Lemma hidden_child_has_no_line :
  generate_markdown (Some hidden_child_tree) = lit "r/" ++ [NEWLINE]
  /\ length (preorder hidden_child_tree) = 2%nat.
Proof. split; reflexivity. Qed.

(** ** The notation detector *)

Lemma lower_char_idempotent (c : char) :
  lower_char (lower_char c) = lower_char c.
Proof.
  unfold lower_char.
  destruct ((65 <=? c) && (c <=? 90))%N eqn:Hup; [|rewrite Hup; reflexivity].
  apply andb_true_iff in Hup as [H1 H2].
  apply N.leb_le in H1, H2.
  destruct ((65 <=? c + 32) && (c + 32 <=? 90))%N eqn:Hup'; [|reflexivity].
  apply andb_true_iff in Hup' as [_ H3]. apply N.leb_le in H3. lia.
Qed.

Lemma lower_idempotent (s : str) : lower (lower s) = lower s.
Proof.
  unfold lower. rewrite map_map. apply map_ext. apply lower_char_idempotent.
Qed.

(** C10: the detector gives an extension the tag of its lowercase form;
    the tag is the outline notation for [.md], the diagram notation for
    [.txt] and [.tree], and for every other extension, the empty one
    included, the result is [None]: no error is raised. *)
Theorem detect_input_type_by_lowercase (input_text file_extension : str) :
  detect_input_type input_text file_extension
  = detect_input_type input_text (lower file_extension)
  /\ detect_input_type input_text file_extension
     = if decide (lower file_extension = lit ".md") then Some markdown
       else if decide (lower file_extension = lit ".txt"
                       \/ lower file_extension = lit ".tree")
       then Some tree
       else None.
Proof.
  assert (Hspec : forall ext, detect_input_type input_text ext
    = if decide (lower ext = lit ".md") then Some markdown
      else if decide (lower ext = lit ".txt" \/ lower ext = lit ".tree")
      then Some tree else None).
  { intros [|c ext]; [reflexivity|]. reflexivity. }
  split; [|apply Hspec].
  rewrite (Hspec file_extension), (Hspec (lower file_extension)).
  rewrite lower_idempotent. reflexivity.
Qed.

(** ** The tree-diagram renderer *)

Lemma generate_tree_text_recursive_unfold
    (ind br lbr nm : str) (d : bool) (lv : Z) (cs : list Node)
    (prefix : str) (is_last : bool) :
  generate_tree_text_recursive ind br lbr (mkNode nm d lv cs) prefix is_last
  = (prefix ++ (if is_last then lbr else br)
     ++ rendered_name (mkNode nm d lv cs) ++ [NEWLINE])
    ++ render_children ind br lbr (Z.of_nat (length cs))
         (prefix ++ (if is_last then ind else VERTICAL :: ind)) 0 cs.
Proof. reflexivity. Qed.

(** The renderer follows the rule of the description on the stored names
    without their last character: for a directory stored as [stem/] that
    is the rule on [stem]; for a file it is the rule on a shortened
    name. *)
Lemma generate_tree_text_recursive_rule (t : Node) :
  forall prefix is_last,
    generate_tree_text_recursive DEFAULT_INDENT DEFAULT_BRANCH DEFAULT_LAST_BRANCH
      t prefix is_last
    = diagram_text prefix is_last (without_last_char t).
Proof.
  induction t as [nm d lv cs IH] using Node_ind. intros prefix is_last.
  rewrite generate_tree_text_recursive_unfold.
  cbn [without_last_char diagram_text]. unfold rendered_name. cbn [name is_dir].
  rewrite <- !app_assoc. do 5 f_equal.
  set (next := prefix ++ (if is_last then DEFAULT_INDENT else VERTICAL :: DEFAULT_INDENT)).
  assert (Hgen : forall i,
    i + Z.of_nat (length cs) = Z.of_nat (length cs) ->
    render_children DEFAULT_INDENT DEFAULT_BRANCH DEFAULT_LAST_BRANCH
      (Z.of_nat (length cs)) next i cs
    = (fix siblings (rest : list Node) : str :=
         match rest with
         | [] => []
         | c :: rest' =>
             diagram_text next (match rest' with [] => true | _ :: _ => false end) c
             ++ siblings rest'
         end) (map without_last_char cs)); [|apply Hgen; lia].
  generalize (Z.of_nat (length cs)) at 2 3 as n.
  induction cs as [|c cs IHcs]; intros n i Hi; [reflexivity|].
  apply Forall_cons in IH as [IHc IH].
  cbn [render_children map]. rewrite IHc.
  rewrite (IHcs IH n (i + 1)) by (simpl length in Hi; lia).
  f_equal. f_equal.
  destruct cs as [|c' cs]; cbn [length map] in Hi |- *.
  - apply Z.eqb_eq. lia.
  - apply Z.eqb_neq. lia.
Qed.

(** C5, at the input where the code departs from it: the line of the file
    [b] below the root [r/] is the prefix and the connector with nothing
    after them, not the prefix, the connector and the name [b]. *)
Theorem file_line_lacks_name :
  generate_tree_text (Some file_child_tree)
  = DEFAULT_LAST_BRANCH ++ lit "r/" ++ [NEWLINE]
    ++ DEFAULT_INDENT ++ DEFAULT_LAST_BRANCH ++ [NEWLINE]
  /\ generate_tree_text (Some file_child_tree)
     <> DEFAULT_LAST_BRANCH ++ lit "r/" ++ [NEWLINE]
        ++ DEFAULT_INDENT ++ DEFAULT_LAST_BRANCH ++ lit "b" ++ [NEWLINE].
Proof. split; [reflexivity|discriminate]. Qed.

(** ** The filesystem materializer *)

Section MaterializerFacts.
Context `{FileSystem fs}.

Lemma create_files_and_dirs_unfold (nm : str) (d : bool) (lv : Z)
    (cs : list Node) (current_path : str) (s : fs) :
  create_files_and_dirs (mkNode nm d lv cs) current_path s
  = let path := path_join current_path nm in
    if d then makedirs path s ≫= create_children path cs
    else if path_exists path s then Some s
    else create_empty path s.
Proof.
  simpl. destruct d; [|reflexivity].
  destruct (makedirs (path_join current_path nm) s) as [s0|]; [simpl|reflexivity].
  revert s0. induction cs as [|c cs IHcs]; intros s0; [reflexivity|].
  simpl. destruct (create_files_and_dirs c _ s0); [simpl|reflexivity].
  apply IHcs.
Qed.

Lemma files_kept_refl (s : fs) : files_kept s s.
Proof. intros q c Hq. exact Hq. Qed.

Lemma files_kept_trans (s1 s2 s3 : fs) :
  files_kept s1 s2 -> files_kept s2 s3 -> files_kept s1 s3.
Proof. intros H12 H23 q c Hq. apply H23, H12, Hq. Qed.

Lemma entries_kept_refl (s : fs) : entries_kept s s.
Proof. intros q. split; auto. Qed.

Lemma entries_kept_trans (s1 s2 s3 : fs) :
  entries_kept s1 s2 -> entries_kept s2 s3 -> entries_kept s1 s3.
Proof.
  intros H12 H23 q. destruct (H12 q), (H23 q). split; auto.
Qed.

(** One run changes no regular file that was there and removes no
    entry. *)
Lemma create_files_and_dirs_keeps (node : Node) :
  forall current_path s s1,
    create_files_and_dirs node current_path s = Some s1 ->
    files_kept s s1 /\ entries_kept s s1.
Proof.
  induction node as [nm d lv cs IH] using Node_ind.
  intros current_path s s1. rewrite create_files_and_dirs_unfold. simpl.
  set (path := path_join current_path nm). destruct d.
  - destruct (makedirs path s) as [s0|] eqn:Hmk; [simpl|discriminate].
    assert (H0 : files_kept s s0 /\ entries_kept s s0).
    { split.
      - intros q c Hq. rewrite (makedirs_files _ _ _ Hmk). exact Hq.
      - intros q. split.
        + apply (makedirs_keeps_dirs _ _ _ Hmk).
        + apply (makedirs_keeps_paths _ _ _ Hmk). }
    clear Hmk. revert s0 H0.
    induction cs as [|c cs IHcs]; intros s0 [Hf He]; simpl.
    + intros [= <-]. auto.
    + apply Forall_cons in IH as [IHc IH].
      destruct (create_files_and_dirs c path s0) as [s'|] eqn:Hc;
        [simpl|discriminate].
      destruct (IHc _ _ _ Hc) as [Hf' He'].
      apply (IHcs IH). split.
      * eapply files_kept_trans; eassumption.
      * eapply entries_kept_trans; eassumption.
  - destruct (path_exists path s) eqn:Hex.
    + intros [= <-]. split; [apply files_kept_refl|apply entries_kept_refl].
    + intros Hcr. split.
      * intros q c Hq. apply (create_files _ _ _ Hex Hcr _ _ Hq).
      * intros q. split.
        -- apply (create_keeps_dirs _ _ _ Hcr).
        -- apply (create_keeps_paths _ _ _ Hcr).
Qed.

Lemma materialized_unfold (nm : str) (d : bool) (lv : Z) (cs : list Node)
    (current_path : str) (s : fs) :
  materialized (mkNode nm d lv cs) current_path s
  <-> let path := path_join current_path nm in
      if d then is_directory path s = true
                /\ Forall (fun c => materialized c path s) cs
      else path_exists path s = true.
Proof.
  simpl. destruct d; [|tauto].
  assert (Hall : forall l,
    (fix all (rest : list Node) : Prop :=
       match rest with
       | [] => True
       | child :: rest' =>
           materialized child (path_join current_path nm) s /\ all rest'
       end) l
    <-> Forall (fun c => materialized c (path_join current_path nm) s) l).
  { induction l as [|c l IHl]; [split; auto|].
    rewrite Forall_cons, IHl. tauto. }
  rewrite Hall. tauto.
Qed.

(** After a run, and in every later state that kept the entries, the
    directories of the tree are there and its file paths exist. *)
Lemma create_files_and_dirs_materializes (node : Node) :
  forall current_path s s1 s2,
    create_files_and_dirs node current_path s = Some s1 ->
    entries_kept s1 s2 ->
    materialized node current_path s2.
Proof.
  induction node as [nm d lv cs IH] using Node_ind.
  intros current_path s s1 s2.
  rewrite create_files_and_dirs_unfold, materialized_unfold. simpl.
  set (path := path_join current_path nm). destruct d.
  - destruct (makedirs path s) as [s0|] eqn:Hmk; [simpl|discriminate].
    pose proof (makedirs_directory _ _ _ Hmk) as Hdir. clear Hmk.
    intros Hrun Hkept.
    assert (Hrest : entries_kept s0 s1
                    /\ Forall (fun c => materialized c path s2) cs).
    { clear Hdir. revert s0 Hrun.
      induction cs as [|c cs IHcs]; intros s0; simpl.
      - intros [= <-]. split; [apply entries_kept_refl|constructor].
      - apply Forall_cons in IH as [IHc IH].
        destruct (create_files_and_dirs c path s0) as [s'|] eqn:Hc;
          [simpl|discriminate].
        intros Hrun. destruct (IHcs IH _ Hrun) as [Hk Hall].
        destruct (create_files_and_dirs_keeps _ _ _ _ Hc) as [_ Hk0].
        split; [eapply entries_kept_trans; eassumption|].
        constructor; [|exact Hall].
        apply (IHc _ _ _ _ Hc). eapply entries_kept_trans; eassumption. }
    destruct Hrest as [Hk Hall]. split; [|exact Hall].
    apply Hkept, Hk, Hdir.
  - destruct (path_exists path s) eqn:Hex.
    + intros [= <-] Hkept. apply Hkept, Hex.
    + intros Hcr Hkept. apply Hkept. apply (create_exists _ _ _ Hcr).
Qed.

(** Where the tree is materialized already, a run succeeds and changes
    nothing. *)
Lemma create_files_and_dirs_materialized (node : Node) :
  forall current_path s,
    materialized node current_path s ->
    create_files_and_dirs node current_path s = Some s.
Proof.
  induction node as [nm d lv cs IH] using Node_ind.
  intros current_path s.
  rewrite create_files_and_dirs_unfold, materialized_unfold. simpl.
  set (path := path_join current_path nm). destruct d.
  - intros [Hdir Hall]. rewrite (makedirs_existing _ _ Hdir). simpl.
    induction cs as [|c cs IHcs]; [reflexivity|].
    apply Forall_cons in IH as [IHc IH].
    apply Forall_cons in Hall as [Hc Hall].
    simpl. rewrite (IHc _ _ Hc). simpl. apply (IHcs IH Hall).
  - intros ->. reflexivity.
Qed.

(** The materializer does not look below a file node. *)
Lemma create_files_and_dirs_visited_part (node : Node) :
  forall current_path s,
    create_files_and_dirs node current_path s
    = create_files_and_dirs (visited_part node) current_path s.
Proof.
  induction node as [nm d lv cs IH] using Node_ind.
  intros current_path s. cbn [visited_part].
  rewrite !create_files_and_dirs_unfold. cbv zeta.
  destruct d; [|reflexivity].
  destruct (makedirs (path_join current_path nm) s) as [s0|]; [|reflexivity].
  cbn [mbind option_bind]. revert s0.
  induction cs as [|c cs IHcs]; intros s0; [reflexivity|].
  apply Forall_cons in IH as [IHc IH].
  cbn [map create_children]. rewrite <- IHc.
  destruct (create_files_and_dirs c (path_join current_path nm) s0) as [s'|];
    [|reflexivity].
  cbn [mbind option_bind]. apply (IHcs IH).
Qed.

(** C9 (as the code has it): a run of the materializer that succeeds
    - leaves every regular file that was there with its content;
    - leaves the path of every directory node it reaches through
      directory nodes a directory, and the path of every file node it so
      reaches existing;
    - at a directory node calls [makedirs] (with [exist_ok]) and then
      goes through the children; at a file node whose path exists changes
      nothing, and else creates the empty file;
    - does not look below a file node: the run is the run on the tree
      with everything below file nodes cut off;
    - and a second run at the same destination succeeds, every directory
      being reused and no file created again, and changes nothing. *)
Theorem materializer_keeps_files_and_is_idempotent
    (node : Node) (current_path : str) (s s1 : fs) :
  create_files_and_dirs node current_path s = Some s1 ->
  files_kept s s1
  /\ materialized node current_path s1
  /\ (let path := path_join current_path (name node) in
      if is_dir node
      then exists s0, makedirs path s = Some s0
                      /\ create_children path (children node) s0 = Some s1
      else if path_exists path s then s1 = s
           else create_empty path s = Some s1)
  /\ create_files_and_dirs node current_path s
     = create_files_and_dirs (visited_part node) current_path s
  /\ create_files_and_dirs node current_path s1 = Some s1.
Proof.
  intros Hrun.
  pose proof (create_files_and_dirs_materializes _ _ _ _ _ Hrun
                (entries_kept_refl s1)) as Hmat.
  split; [apply (create_files_and_dirs_keeps _ _ _ _ Hrun)|].
  split; [exact Hmat|]. split; [|split].
  - destruct node as [nm d lv cs].
    rewrite create_files_and_dirs_unfold in Hrun. cbv zeta in Hrun |- *.
    cbn [name is_dir children]. destruct d.
    + destruct (makedirs (path_join current_path nm) s) as [s0|];
        [|discriminate].
      exists s0. split; [reflexivity|exact Hrun].
    + destruct (path_exists (path_join current_path nm) s); congruence.
  - apply create_files_and_dirs_visited_part.
  - apply create_files_and_dirs_materialized, Hmat.
Qed.
End MaterializerFacts.

Lemma materializer_keeps_files_and_is_idempotent_witness :
  files_kept kept_file_state materialized_example
  /\ materialized expected_example_tree (lit ".") materialized_example
  /\ (exists s0,
        makedirs (lit "./root/") kept_file_state = Some s0
        /\ create_children (lit "./root/") (children expected_example_tree) s0
           = Some materialized_example)
  /\ create_files_and_dirs expected_example_tree (lit ".") kept_file_state
     = create_files_and_dirs (visited_part expected_example_tree) (lit ".")
         kept_file_state
  /\ create_files_and_dirs expected_example_tree (lit ".") materialized_example
     = Some materialized_example.
Proof.
  apply (materializer_keeps_files_and_is_idempotent
           expected_example_tree (lit ".") kept_file_state materialized_example).
  vm_compute. reflexivity.
Defined.

(** C9, counterexample: in the tree of the outline [r/], [    b],
    [        d/] the directory node [d/] lies below the file node [b].
    The run from the empty filesystem succeeds, and afterwards the path
    of [d/] is no directory and does not exist: no directory was created
    for that directory node. *)
Lemma directory_below_file_not_created :
  tree_of_markdown dir_below_file_outline = Some dir_below_file_tree
  /\ exists s1 : path_map,
       create_files_and_dirs dir_below_file_tree (lit ".") empty_state = Some s1
       /\ is_directory (lit "./r/b/d/") s1 = false
       /\ path_exists (lit "./r/b/d/") s1 = false
       /\ path_join (path_join (path_join (lit ".") (lit "r/")) (lit "b")) (lit "d/")
          = lit "./r/b/d/".
Proof.
  split; [vm_compute; reflexivity|].
  eexists. split; [vm_compute; reflexivity|].
  repeat split; vm_compute; reflexivity.
Defined.

(** ** Rendering a tree diagram and parsing it again *)

Lemma splitlines_line (line rest : str) :
  forallb (fun c => negb (is_linebreak c)) line = true ->
  splitlines (line ++ NEWLINE :: rest) = line :: splitlines rest.
Proof.
  induction line as [|c line IH]; intros Hline.
  - simpl. destruct rest; reflexivity.
  - simpl in Hline. apply andb_true_iff in Hline as [Hc Hline].
    apply negb_true_iff in Hc.
    change ((c :: line) ++ NEWLINE :: rest)
      with (c :: (line ++ NEWLINE :: rest)).
    cbn [splitlines]. rewrite Hc, (IH Hline). reflexivity.
Qed.

Lemma tree_char_not_linebreak (c : char) :
  is_tree_char c = true -> is_linebreak c = false.
Proof.
  unfold is_tree_char. rewrite !orb_true_iff, !N.eqb_eq.
  intros [[[[->| ->]| ->]| ->]| ->]; reflexivity.
Qed.

Lemma ends_with_slash (nm : str) :
  endswith nm [SLASH] = true -> exists stem, nm = stem ++ [SLASH].
Proof.
  unfold endswith. destruct (rev nm) as [|c r] eqn:Hrev; [discriminate|].
  simpl. rewrite andb_true_r. intros Hc. apply N.eqb_eq in Hc. subst c.
  exists (rev r). rewrite <- (rev_involutive nm), Hrev. reflexivity.
Qed.

Lemma rstrip_ends_with_slash (stem : str) :
  rstrip (stem ++ [SLASH]) = stem ++ [SLASH].
Proof.
  unfold rstrip. rewrite rev_app_distr. simpl.
  rewrite rev_involutive. reflexivity.
Qed.

Lemma count_spaces_app (l1 l2 : str) :
  count_spaces (l1 ++ l2) = count_spaces l1 + count_spaces l2.
Proof.
  induction l1 as [|c l1 IH]; simpl; [reflexivity|]. rewrite IH. lia.
Qed.

Lemma count_spaces_no_tree_char (nm : str) :
  forallb (fun c => negb (is_tree_char c)) nm = true -> count_spaces nm = 0.
Proof.
  induction nm as [|c nm IH]; simpl; [reflexivity|].
  intros Hnm. apply andb_true_iff in Hnm as [Hc Hnm].
  rewrite (IH Hnm). unfold is_tree_char in Hc.
  destruct (c =? SPACE)%N; [discriminate|reflexivity].
Qed.

Lemma name_part_no_tree_char (nm : str) :
  forallb (fun c => negb (is_tree_char c)) nm = true -> name_part nm = nm.
Proof.
  intros Hnm. destruct nm as [|c nm]; [reflexivity|].
  simpl in Hnm |- *. apply andb_true_iff in Hnm as [Hc Hnm].
  apply negb_true_iff in Hc. rewrite Hc. simpl.
  assert (Hex : existsb is_tree_char nm = false).
  { clear -Hnm. induction nm as [|a nm IH]; [reflexivity|].
    simpl in Hnm |- *. apply andb_true_iff in Hnm as [Ha Hnm].
    apply negb_true_iff in Ha. rewrite Ha. simpl. auto. }
  rewrite Hex. reflexivity.
Qed.

Lemma name_part_after_tree_chars (sep nm : str) :
  forallb is_tree_char sep = true ->
  forallb (fun c => negb (is_tree_char c)) nm = true ->
  name_part (sep ++ nm) = nm.
Proof.
  intros Hsep Hnm. induction sep as [|c sep IH].
  - apply name_part_no_tree_char, Hnm.
  - simpl in Hsep |- *. apply andb_true_iff in Hsep as [Hc Hsep].
    rewrite Hc. simpl. auto.
Qed.

(** What a clean name that ends in [/] gives. *)
Lemma clean_name_facts (nm : str) :
  clean_name nm = true ->
  endswith nm [SLASH] = true ->
  forallb (fun c => negb (is_tree_char c)) nm = true
  /\ forallb (fun c => negb (is_linebreak c)) nm = true
  /\ strip nm = nm
  /\ exists stem, nm = stem ++ [SLASH].
Proof.
  unfold clean_name. intros Hclean Hend.
  apply andb_true_iff in Hclean as [Hall Hfirst].
  destruct (ends_with_slash nm Hend) as [stem Hstem].
  split; [|split; [|split; [|exists stem; exact Hstem]]].
  - clear -Hall. induction nm as [|c nm IH]; [reflexivity|].
    simpl in Hall |- *. apply andb_true_iff in Hall as [Hc Hall].
    apply andb_true_iff in Hc as [Hc _]. rewrite Hc. auto.
  - clear -Hall. induction nm as [|c nm IH]; [reflexivity|].
    simpl in Hall |- *. apply andb_true_iff in Hall as [Hc Hall].
    apply andb_true_iff in Hc as [_ Hc]. rewrite Hc. auto.
  - unfold strip. rewrite Hstem at 1. rewrite rstrip_ends_with_slash, <- Hstem.
    destruct nm as [|c nm]; [reflexivity|].
    simpl. apply negb_true_iff in Hfirst. rewrite Hfirst. reflexivity.
Qed.

(** The record read from the line of a directory: the name, and one more
    than the number of indentation units before the connector. *)
Lemma tree_entry_rendered_line (d : Z) (prefix nm : str) (is_last : bool) :
  0 <= d ->
  diagram_prefix d prefix ->
  clean_name nm = true ->
  endswith nm [SLASH] = true ->
  tree_entry 4 (prefix ++ (if is_last then DEFAULT_LAST_BRANCH else DEFAULT_BRANCH) ++ nm)
  = (nm, d + 1).
Proof.
  intros Hd [Hpre Hcount] Hclean Hend.
  destruct (clean_name_facts nm Hclean Hend) as (Hfree & _ & Hstrip & _).
  rewrite (tree_entry_diagram_entry 4). unfold diagram_entry.
  set (conn := if is_last then DEFAULT_LAST_BRANCH else DEFAULT_BRANCH).
  assert (Hconn : forallb is_tree_char conn = true
                  /\ count_spaces conn = 1
                  /\ existsb is_branch_glyph conn = true).
  { unfold conn. destruct is_last; repeat split. }
  destruct Hconn as (Hc1 & Hc2 & Hc3).
  rewrite app_assoc, name_part_after_tree_chars, Hstrip;
    [|rewrite forallb_app, Hpre, Hc1; reflexivity|exact Hfree].
  rewrite !count_spaces_app, Hcount, Hc2, (count_spaces_no_tree_char nm Hfree).
  rewrite !existsb_app, Hc3, orb_true_r, orb_true_l.
  f_equal. replace (4 * d + 1 + 0) with (1 + d * 4) by lia.
  rewrite Z.div_add by lia. reflexivity.
Qed.

Lemma diagram_prefix_next (d : Z) (prefix : str) (is_last : bool) :
  diagram_prefix d prefix ->
  diagram_prefix (d + 1)
    (prefix ++ (if is_last then DEFAULT_INDENT else VERTICAL :: DEFAULT_INDENT)).
Proof.
  intros [Hpre Hcount]. split.
  - rewrite forallb_app, Hpre. destruct is_last; reflexivity.
  - rewrite count_spaces_app, Hcount.
    destruct is_last; simpl; lia.
Qed.

Lemma line_without_linebreak (prefix conn nm : str) :
  forallb is_tree_char prefix = true ->
  forallb is_tree_char conn = true ->
  forallb (fun c => negb (is_linebreak c)) nm = true ->
  forallb (fun c => negb (is_linebreak c)) (prefix ++ conn ++ nm) = true.
Proof.
  intros Hpre Hconn Hnm.
  assert (Htree : forall l, forallb is_tree_char l = true ->
                  forallb (fun c => negb (is_linebreak c)) l = true).
  { induction l as [|c l IH]; [reflexivity|]. simpl.
    intros Hl. apply andb_true_iff in Hl as [Hc Hl].
    rewrite (tree_char_not_linebreak c Hc). simpl. auto. }
  rewrite !forallb_app, (Htree _ Hpre), (Htree _ Hconn), Hnm. reflexivity.
Qed.

Lemma parse_rendered_tree (t : Node) :
  forall (d : Z) (prefix : str) (is_last : bool) (more : str),
    0 <= d ->
    diagram_prefix d prefix ->
    directory_tree t = true ->
    parse_tree_lines 4
      (splitlines
         (generate_tree_text_recursive DEFAULT_INDENT DEFAULT_BRANCH
            DEFAULT_LAST_BRANCH t prefix is_last ++ more))
    = records_of (d + 1) t ++ parse_tree_lines 4 (splitlines more).
Proof.
  induction t as [nm dir lv cs IH] using Node_ind.
  intros d prefix is_last more Hd Hprefix Htree.
  simpl in Htree. apply andb_true_iff in Htree as [Htree Hcs].
  apply andb_true_iff in Htree as [Htree Hclean].
  apply andb_true_iff in Htree as [Hdir Hend]. subst dir.
  destruct (clean_name_facts nm Hclean Hend) as (Hfree & Hbreak & Hstrip & stem & Hstem).
  rewrite generate_tree_text_recursive_unfold.
  set (conn := if is_last then DEFAULT_LAST_BRANCH else DEFAULT_BRANCH).
  assert (Hname : rendered_name (mkNode nm true lv cs) = nm).
  { unfold rendered_name, drop_last. simpl. rewrite Hstem at 1.
    rewrite removelast_last. symmetry. exact Hstem. }
  rewrite Hname.
  set (next := prefix ++ (if is_last then DEFAULT_INDENT else VERTICAL :: DEFAULT_INDENT)).
  assert (Hnext : diagram_prefix (d + 1) next) by (apply diagram_prefix_next, Hprefix).
  set (rendered := render_children DEFAULT_INDENT DEFAULT_BRANCH
                     DEFAULT_LAST_BRANCH (Z.of_nat (length cs)) next 0 cs).
  assert (Hshape : ((prefix ++ conn ++ nm ++ [NEWLINE]) ++ rendered) ++ more
                   = (prefix ++ conn ++ nm) ++ NEWLINE :: (rendered ++ more)).
  { rewrite <- !app_assoc. reflexivity. }
  rewrite Hshape. clear Hshape.
  rewrite splitlines_line.
  2:{ apply line_without_linebreak; [apply Hprefix| |exact Hbreak].
      unfold conn. destruct is_last; reflexivity. }
  cbn [parse_tree_lines].
  assert (Hrs : rstrip (prefix ++ conn ++ nm) = prefix ++ conn ++ nm).
  { rewrite Hstem, !app_assoc. apply rstrip_ends_with_slash. }
  rewrite Hrs.
  destruct (prefix ++ conn ++ nm) as [|c0 line0] eqn:Hline.
  { exfalso. rewrite Hstem in Hline.
    apply (f_equal (@length N)) in Hline. rewrite !length_app in Hline.
    simpl in Hline. lia. }
  rewrite <- Hline. unfold conn.
  rewrite (tree_entry_rendered_line d prefix nm is_last Hd Hprefix Hclean Hend).
  cbn [records_of]. rewrite <- app_comm_cons. f_equal.
  (* the children *)
  unfold rendered. clear rendered Hline Hrs Hname.
  generalize (Z.of_nat (length cs)) as n. generalize 0 as i.
  induction cs as [|c cs IHcs]; intros i n; [reflexivity|].
  apply Forall_cons in IH as [IHc IH].
  simpl in Hcs. apply andb_true_iff in Hcs as [Hc Hcs].
  cbn [render_children flat_map]. rewrite <- !app_assoc.
  rewrite (IHc (d + 1) next (i =? n - 1)) by (auto; lia).
  f_equal. apply (IHcs IH Hcs).
Qed.

Lemma parse_generated_tree_text (t : Node) :
  directory_tree t = true ->
  parse_tree_text (generate_tree_text (Some t)) = records_of 1 t.
Proof.
  intros Htree. unfold parse_tree_text, parse_tree_text_with, generate_tree_text.
  simpl generate_tree_text_with.
  pose proof (parse_rendered_tree t 0 [] true [] ltac:(lia)) as Hparse.
  rewrite !app_nil_r in Hparse. apply Hparse; [|exact Htree].
  split; reflexivity.
Qed.

(** ** Building a tree from the records of a tree *)

Lemma cells_of_unfold (lv : Z) (n : nat) (nm : str) (d : bool) (lv0 : Z)
    (cs : list Node) :
  cells_of lv n (mkNode nm d lv0 cs)
  = mkCell nm (endswith nm [SLASH]) lv (child_ids (S n) cs)
    :: forest_cells (lv + 1) (S n) cs.
Proof. reflexivity. Qed.

Lemma forest_cells_length (ts : list Node) :
  Forall (fun t => forall lv n, length (cells_of lv n t) = length (preorder t)) ts ->
  forall lv n,
    length (forest_cells lv n ts) = length (flat_map preorder ts).
Proof.
  induction 1 as [|t ts Ht _ IH]; intros lv n; [reflexivity|].
  cbn [forest_cells flat_map]. rewrite !length_app, Ht, IH. reflexivity.
Qed.

Lemma cells_of_length (t : Node) :
  forall lv n, length (cells_of lv n t) = length (preorder t).
Proof.
  induction t as [nm d lv0 cs IH] using Node_ind. intros lv n.
  rewrite cells_of_unfold. cbn [preorder length].
  rewrite (forest_cells_length cs IH). reflexivity.
Qed.

Lemma level_of_push_children (ids : list nat) (h : heap) (p i : nat) :
  level_of (alter (push_children ids) p h) i = level_of h i.
Proof.
  unfold level_of.
  destruct (decide (p = i)) as [->|Hne].
  - rewrite list_lookup_alter_eq. destruct (h !! i); reflexivity.
  - rewrite list_lookup_alter_ne by exact Hne. reflexivity.
Qed.

Lemma level_of_at_end (h h' : heap) (c : cell) (more : heap) :
  length h' = length h ->
  level_of (h' ++ c :: more) (length h) = c_level c.
Proof.
  intros Hlen. unfold level_of. rewrite lookup_app_r by lia.
  replace (length h - length h')%nat with 0%nat by lia. reflexivity.
Qed.

Lemma pop_while_popped (h : heap) (lv : Z) (extra stack : list nat) :
  Forall (fun q => lv <= level_of h q) extra ->
  pop_while h lv (extra ++ stack) = pop_while h lv stack.
Proof.
  induction 1 as [|q extra Hq _ IH]; [reflexivity|].
  simpl. apply Z.leb_le in Hq. rewrite Hq. exact IH.
Qed.

Lemma push_children_nil (c : cell) : push_children [] c = c.
Proof. destruct c. unfold push_children. simpl. rewrite app_nil_r. reflexivity. Qed.

Lemma push_children_app (ids ids' : list nat) (c : cell) :
  push_children ids' (push_children ids c) = push_children (ids ++ ids') c.
Proof. unfold push_children. simpl. rewrite app_assoc. reflexivity. Qed.

Lemma reads_forest_of_trees (ts : list Node) :
  Forall reads_tree ts -> reads_forest ts.
Proof.
  induction 1 as [|t ts Ht _ IH]; intros lv h extra p rest Hbelow.
  - exists extra. simpl.
    rewrite app_nil_r, (list_alter_id _ _ _ push_children_nil). auto.
  - cbn [flat_map]. rewrite foldl_app.
    destruct (Ht lv h extra p rest Hbelow) as (extra1 & Hrun1 & Hbelow1).
    rewrite Hrun1.
    destruct (IH lv _ extra1 p rest Hbelow1) as (extra2 & Hrun2 & Hbelow2).
    assert (Hp : (p < length h)%nat) by apply Hbelow.
    assert (Hheap :
      alter (push_children
               (child_ids (length (alter (push_children [length h]) p h
                                   ++ cells_of lv (length h) t)) ts)) p
        (alter (push_children [length h]) p h ++ cells_of lv (length h) t)
      ++ forest_cells lv (length (alter (push_children [length h]) p h
                                  ++ cells_of lv (length h) t)) ts
      = alter (push_children (child_ids (length h) (t :: ts))) p h
        ++ forest_cells lv (length h) (t :: ts)).
    { rewrite length_app, length_alter, cells_of_length.
      rewrite alter_app_l by (rewrite length_alter; exact Hp).
      rewrite list_alter_alter_eq. cbn [child_ids forest_cells].
      rewrite <- app_assoc. f_equal.
      apply list_alter_ext; [|reflexivity].
      intros c _. simpl. apply push_children_app. }
    rewrite Hheap in Hrun2, Hbelow2.
    exists extra2. auto.
Qed.

Lemma reads_tree_all (t : Node) : reads_tree t.
Proof.
  induction t as [nm d lv0 cs IH] using Node_ind.
  apply reads_forest_of_trees in IH.
  intros lv h extra p rest (Hp & Hplv & Hextra).
  cbn [records_of foldl].
  set (cnew := new_cell nm (endswith nm [SLASH]) lv).
  assert (Hstep : build_step (h, extra ++ p :: rest) (nm, lv)
                  = (alter (push_children [length h]) p h ++ [cnew],
                     length h :: p :: rest)).
  { unfold build_step. fold cnew.
    rewrite pop_while_popped.
    2:{ eapply Forall_impl; [exact Hextra|]. simpl. intros q [Hq Hqlv].
        rewrite level_of_app_l by exact Hq. exact Hqlv. }
    simpl. rewrite level_of_app_l by exact Hp.
    destruct (Z.leb_spec lv (level_of h p)) as [Hle|_]; [lia|].
    unfold add_child. rewrite alter_app_l by exact Hp. reflexivity. }
  rewrite Hstep.
  set (h2 := alter (push_children [length h]) p h ++ [cnew]).
  assert (Hlen2 : length h2 = S (length h)).
  { unfold h2. rewrite length_app, length_alter. simpl. lia. }
  assert (Hbelow2 : below h2 (lv + 1) (length h) []).
  { split; [lia|]. split; [|constructor].
    unfold h2. rewrite level_of_at_end by apply length_alter. simpl. lia. }
  destruct (IH (lv + 1) h2 [] (length h) (p :: rest) Hbelow2)
    as (extra' & Hrun & Hp' & Hplv' & Hextra').
  simpl app in Hrun at 1. rewrite Hrun.
  assert (Hheap :
    alter (push_children (child_ids (length h2) cs)) (length h) h2
    ++ forest_cells (lv + 1) (length h2) cs
    = alter (push_children [length h]) p h
      ++ cells_of lv (length h) (mkNode nm d lv0 cs)).
  { rewrite Hlen2, cells_of_unfold. unfold h2.
    rewrite <- (length_alter (push_children [length h]) h p) at 2.
    rewrite <- (Nat.add_0_r (length (alter _ p h))) at 1.
    rewrite alter_app_r. simpl. rewrite <- app_assoc. reflexivity. }
  rewrite Hheap in *.
  exists (extra' ++ [length h]). rewrite <- app_assoc. split; [reflexivity|].
  assert (Hlv : forall q, (q < length h)%nat ->
            level_of (alter (push_children [length h]) p h
                      ++ cells_of lv (length h) (mkNode nm d lv0 cs)) q
            = level_of h q).
  { intros q Hq. rewrite level_of_app_l by (rewrite length_alter; exact Hq).
    apply level_of_push_children. }
  split; [rewrite length_app, length_alter; lia|].
  split; [rewrite Hlv by exact Hp; exact Hplv|].
  apply Forall_app. split.
  - eapply Forall_impl; [exact Hextra'|]. simpl. intros q [Hq Hqlv]. split; [exact Hq|lia].
  - constructor; [|constructor]. split; [exact Hp'|].
    rewrite cells_of_unfold, level_of_at_end by apply length_alter.
    simpl. lia.
Qed.

Lemma build_tree_records (lv : Z) (nm : str) (d : bool) (lv0 : Z) (cs : list Node) :
  build_tree (records_of lv (mkNode nm d lv0 cs))
  = Some (mkCell nm true lv (child_ids 1 cs) :: forest_cells (lv + 1) 1 cs, 0%nat).
Proof.
  cbn [records_of build_tree].
  pose proof (reads_forest_of_trees cs) as Hforest.
  assert (Hall : Forall reads_tree cs).
  { apply Forall_forall. intros t _. apply reads_tree_all. }
  specialize (Hforest Hall (lv + 1) [new_cell nm true lv] [] 0%nat []).
  destruct Hforest as (extra' & Hrun & _).
  { split; [simpl; lia|]. split; [unfold level_of; simpl; lia|constructor]. }
  simpl app in Hrun at 1. rewrite Hrun. reflexivity.
Qed.

(** ** Reading the built tree *)

Lemma read_forest_cells (cs : list Node) :
  Forall reads_back cs ->
  forall lv m (before after : heap) fuel,
    length before = m ->
    (length (flat_map preorder cs) <= fuel)%nat ->
    mapM (read_node fuel (before ++ forest_cells lv m cs ++ after)) (child_ids m cs)
    = Some (map (flagged lv) cs).
Proof.
  induction 1 as [|c cs Hc _ IH]; intros lv m before after fuel Hlen Hfuel;
    [reflexivity|].
  cbn [flat_map] in Hfuel. rewrite length_app in Hfuel.
  cbn [child_ids forest_cells mapM map].
  rewrite <- (app_assoc (cells_of lv m c)).
  rewrite (Hc lv m before _ fuel Hlen) by lia. simpl.
  rewrite (app_assoc before (cells_of lv m c)).
  rewrite (IH lv _ (before ++ cells_of lv m c) after fuel)
    by (rewrite ?length_app, ?cells_of_length; lia).
  reflexivity.
Qed.

Lemma reads_back_all (t : Node) : reads_back t.
Proof.
  induction t as [nm d lv0 cs IH] using Node_ind.
  intros lv n before after fuel Hlen Hfuel.
  cbn [preorder length] in Hfuel.
  destruct fuel as [|fuel]; [lia|].
  rewrite cells_of_unfold. cbn [read_node].
  rewrite lookup_app_r by lia. rewrite Hlen, Nat.sub_diag. simpl.
  change (before ++ ?c :: forest_cells (lv + 1) (S n) cs ++ after)
    with (before ++ [c] ++ forest_cells (lv + 1) (S n) cs ++ after).
  rewrite (app_assoc before).
  rewrite (read_forest_cells cs IH (lv + 1) (S n))
    by (rewrite ?length_app; simpl; lia).
  reflexivity.
Qed.

Lemma read_built_tree (lv : Z) (nm : str) (cs : list Node) :
  read_tree (mkCell nm true lv (child_ids 1 cs) :: forest_cells (lv + 1) 1 cs, 0%nat)
  = Some (mkNode nm true lv (map (flagged (lv + 1)) cs)).
Proof.
  unfold read_tree. cbn [fst snd length read_node]. simpl lookup. simpl.
  assert (Hall : Forall reads_back cs).
  { apply Forall_forall. intros t _. apply reads_back_all. }
  pose proof (read_forest_cells cs Hall (lv + 1) 1%nat
                [mkCell nm true lv (child_ids 1 cs)] []
                (length (forest_cells (lv + 1) 1 cs)) eq_refl) as Hread.
  rewrite app_nil_r in Hread. simpl app in Hread.
  rewrite Hread; [reflexivity|].
  rewrite forest_cells_length; [lia|].
  apply Forall_forall. intros t _. apply cells_of_length.
Qed.

Lemma flagged_directory_tree (t : Node) :
  forall lv, directory_tree t = true -> flagged lv t = set_levels lv t.
Proof.
  induction t as [nm d lv0 cs IH] using Node_ind. intros lv Htree.
  simpl in Htree. apply andb_true_iff in Htree as [Htree Hcs].
  apply andb_true_iff in Htree as [Htree _].
  apply andb_true_iff in Htree as [-> Hend].
  cbn [flagged set_levels]. rewrite Hend. f_equal.
  induction cs as [|c cs IHcs]; [reflexivity|].
  apply Forall_cons in IH as [IHc IH].
  simpl in Hcs. apply andb_true_iff in Hcs as [Hc Hcs].
  cbn [map]. rewrite (IHc _ Hc), (IHcs IH Hcs). reflexivity.
Qed.

Lemma forget_set_levels (t : Node) :
  forall lv, forget_levels (set_levels lv t) = forget_levels t.
Proof.
  induction t as [nm d lv0 cs IH] using Node_ind. intros lv.
  cbn [set_levels forget_levels]. f_equal. rewrite map_map.
  induction cs as [|c cs IHcs]; [reflexivity|].
  apply Forall_cons in IH as [IHc IH].
  cbn [map]. rewrite IHc, (IHcs IH). reflexivity.
Qed.

(** C1 (as the code has it): for a tree of directories whose stored names
    end in [/], contain no space, tree-drawing character or line boundary
    and do not begin with whitespace, rendering the tree diagram, parsing
    it and building gives back the tree with level 1 at the root and one
    more per generation: the same shape, names and directory flags. *)
Theorem diagram_round_trip_of_directories (t : Node) :
  directory_tree t = true ->
  diagram_round_trip t = Some (set_levels 1 t)
  /\ forget_levels (set_levels 1 t) = forget_levels t.
Proof.
  intros Htree. split; [|apply forget_set_levels].
  unfold diagram_round_trip.
  rewrite (parse_generated_tree_text t Htree).
  rewrite <- (flagged_directory_tree t 1 Htree).
  destruct t as [nm d lv0 cs].
  rewrite build_tree_records. cbn [mbind option_bind].
  rewrite read_built_tree. cbn [flagged].
  simpl in Htree. apply andb_true_iff in Htree as [Htree _].
  apply andb_true_iff in Htree as [Htree _].
  apply andb_true_iff in Htree as [_ ->]. reflexivity.
Qed.

Lemma diagram_round_trip_of_directories_witness :
  diagram_round_trip directory_example_tree
  = Some (set_levels 1 directory_example_tree)
  /\ forget_levels (set_levels 1 directory_example_tree)
     = forget_levels directory_example_tree.
Proof.
  apply (diagram_round_trip_of_directories directory_example_tree).
  reflexivity.
Defined.

(** C1, counterexample: the one-node tree [a b/] comes back as [b/]: the
    parser takes the name after the last space of the line. *)
Lemma round_trip_loses_spaced_name :
  diagram_round_trip spaced_name_tree = Some (mkNode (lit "b/") true 1 [])
  /\ forget_levels (mkNode (lit "b/") true 1 []) <> forget_levels spaced_name_tree.
Proof. split; [vm_compute; reflexivity|discriminate]. Qed.

(** The round trip of a tree with a file: the file's name is rendered
    without its last character, so [b] comes back as the empty name. *)
Lemma round_trip_of_file_name :
  diagram_round_trip file_child_tree
  = Some (mkNode (lit "r/") true 1 [ mkNode [] false 2 [] ]).
Proof. vm_compute. reflexivity. Qed.

(** * Further properties *)

(** ** Lines and trimming *)

Lemma splitlines_no_linebreak_upto (n : nat) :
  forall s, (length s <= n)%nat ->
    Forall (fun l => no_linebreak l = true) (splitlines s).
Proof.
  induction n as [|n IH]; intros s Hlen.
  - destruct s; [constructor|simpl in Hlen; lia].
  - destruct s as [|c rest]; [constructor|]. simpl in Hlen.
    cbn [splitlines]. destruct (is_linebreak c) eqn:Hc.
    + constructor; [reflexivity|].
      destruct rest as [|c' rest']; [constructor|]. simpl in Hlen.
      destruct ((c =? 13) && (c' =? 10))%N; apply IH; simpl; lia.
    + pose proof (IH rest ltac:(lia)) as Hrest.
      destruct (splitlines rest) as [|l ls].
      * constructor; [|constructor]. unfold no_linebreak. simpl. rewrite Hc. reflexivity.
      * apply Forall_cons in Hrest as [Hl Hls]. constructor; [|exact Hls].
        unfold no_linebreak in *. simpl. rewrite Hc, Hl. reflexivity.
Qed.

Lemma splitlines_no_linebreak (s : str) :
  Forall (fun l => no_linebreak l = true) (splitlines s).
Proof. apply (splitlines_no_linebreak_upto (length s)). lia. Qed.

Lemma lstrip_suffix (s : str) : exists pre, s = pre ++ lstrip s.
Proof.
  induction s as [|c s [pre Hpre]]; [exists []; reflexivity|].
  simpl. destruct (is_space c).
  - exists (c :: pre). simpl. congruence.
  - exists []. reflexivity.
Qed.

Lemma lstrip_head (s : str) :
  match lstrip s with
  | c :: _ => is_space c = false
  | [] => True
  end.
Proof.
  induction s as [|c s IH]; [exact I|]. simpl.
  destruct (is_space c) eqn:Hc; [exact IH|exact Hc].
Qed.

Lemma lstrip_snoc (s : str) (c : char) :
  is_space c = false -> lstrip (s ++ [c]) = lstrip s ++ [c].
Proof.
  intros Hc. induction s as [|a s IH]; simpl.
  - rewrite Hc. reflexivity.
  - destruct (is_space a); [exact IH|reflexivity].
Qed.

Lemma rstrip_snoc (s : str) (c : char) :
  is_space c = false -> rstrip (s ++ [c]) = s ++ [c].
Proof.
  intros Hc. unfold rstrip. rewrite rev_app_distr. simpl. rewrite Hc.
  simpl. rewrite rev_involutive. reflexivity.
Qed.

Lemma rstrip_prefix (s : str) : exists suf, s = rstrip s ++ suf.
Proof.
  unfold rstrip. destruct (lstrip_suffix (rev s)) as [pre Hpre].
  exists (rev pre). rewrite <- rev_app_distr, <- Hpre, rev_involutive. reflexivity.
Qed.

(** A line that is not empty once its trailing whitespace is removed ends
    in a character that is not whitespace. *)
Lemma rstrip_ends (s : str) :
  rstrip s = [] \/ exists body c, rstrip s = body ++ [c] /\ is_space c = false.
Proof.
  unfold rstrip. pose proof (lstrip_head (rev s)) as Hhead.
  destruct (lstrip (rev s)) as [|c r]; [left; reflexivity|].
  right. exists (rev r), c. split; [reflexivity|exact Hhead].
Qed.

Lemma trimmed_snoc (s : str) (c : char) :
  is_space c = false ->
  match s with a :: _ => is_space a = false | [] => True end ->
  trimmed (s ++ [c]) = true.
Proof.
  intros Hc Hs. unfold trimmed. rewrite last_snoc, Hc. simpl.
  destruct s as [|a s]; simpl; [rewrite Hc|rewrite Hs]; reflexivity.
Qed.

Lemma trimmed_ends (nm : str) :
  trimmed nm = true ->
  exists body c, nm = body ++ [c] /\ is_space c = false
    /\ match nm with a :: _ => is_space a = false | [] => False end.
Proof.
  unfold trimmed. intros Ht. apply andb_true_iff in Ht as [Hfirst Hlast].
  destruct nm as [|a nm]; [discriminate|].
  destruct (last (a :: nm)) as [c|] eqn:Hl; [|discriminate].
  apply last_Some in Hl as [body Hbody].
  exists body, c. split; [exact Hbody|].
  split; apply negb_true_iff; assumption.
Qed.

Lemma trimmed_strip (nm : str) :
  trimmed nm = true ->
  nm <> [] /\ lstrip nm = nm /\ rstrip nm = nm /\ strip nm = nm.
Proof.
  intros Ht. destruct (trimmed_ends nm Ht) as (body & c & Hnm & Hc & Hfirst).
  assert (Hl : lstrip nm = nm).
  { destruct nm as [|a nm]; [contradiction|]. simpl. rewrite Hfirst. reflexivity. }
  assert (Hr : rstrip nm = nm).
  { rewrite Hnm. apply rstrip_snoc, Hc. }
  split; [destruct nm; [contradiction|discriminate]|].
  split; [exact Hl|]. split; [exact Hr|].
  unfold strip. rewrite Hr. exact Hl.
Qed.

Lemma strip_trimmed (body : str) (c : char) :
  is_space c = false -> trimmed (strip (body ++ [c])) = true.
Proof.
  intros Hc. unfold strip. rewrite rstrip_snoc, lstrip_snoc by exact Hc.
  apply trimmed_snoc; [exact Hc|apply lstrip_head].
Qed.

Lemma no_linebreak_app (s t : str) :
  no_linebreak (s ++ t) = no_linebreak s && no_linebreak t.
Proof. apply forallb_app. Qed.

Lemma no_linebreak_lstrip (s : str) :
  no_linebreak s = true -> no_linebreak (lstrip s) = true.
Proof.
  destruct (lstrip_suffix s) as [pre Hpre]. intros Hs.
  rewrite Hpre, no_linebreak_app in Hs. apply andb_true_iff in Hs. tauto.
Qed.

Lemma no_linebreak_rstrip (s : str) :
  no_linebreak s = true -> no_linebreak (rstrip s) = true.
Proof.
  destruct (rstrip_prefix s) as [suf Hsuf]. intros Hs.
  rewrite Hsuf, no_linebreak_app in Hs. apply andb_true_iff in Hs. tauto.
Qed.

Lemma no_linebreak_drop (n : nat) (s : str) :
  no_linebreak s = true -> no_linebreak (drop n s) = true.
Proof.
  intros Hs. rewrite <- (take_drop n s), no_linebreak_app in Hs.
  apply andb_true_iff in Hs. tauto.
Qed.

Lemma leading_spaces_bound (body : str) (c : char) :
  is_space c = false ->
  (Z.to_nat (leading_spaces (body ++ [c])) <= length body)%nat.
Proof.
  intros Hc. induction body as [|a body IH]; simpl.
  - destruct (N.eqb_spec c SPACE) as [->|_]; [discriminate|]. simpl. lia.
  - destruct (a =? SPACE)%N; [|simpl; lia].
    pose proof (leading_spaces_nonneg (body ++ [c])). lia.
Qed.

(** The record of one line of an outline. *)
Lemma markdown_entry_trimmed (body : str) (c : char) :
  is_space c = false ->
  trimmed (markdown_entry (body ++ [c])).1 = true
  /\ 0 <= (markdown_entry (body ++ [c])).2.
Proof.
  intros Hc. unfold markdown_entry. simpl. split; [|apply leading_spaces_nonneg].
  pose proof (leading_spaces_bound body c Hc) as Hle.
  rewrite drop_app_le by exact Hle. apply strip_trimmed, Hc.
Qed.

Lemma parse_markdown_entries_trimmed (markdown_text : str) :
  Forall (fun e : entry =>
            trimmed e.1 = true /\ no_linebreak e.1 = true /\ 0 <= e.2)
    (parse_markdown markdown_text).
Proof.
  unfold parse_markdown.
  pose proof (splitlines_no_linebreak markdown_text) as Hlines.
  induction Hlines as [|l ls Hl _ IH]; [constructor|].
  cbn [parse_markdown_lines].
  destruct (rstrip_ends l) as [Hempty|(body & c & Hline & Hc)].
  - rewrite Hempty. exact IH.
  - pose proof (no_linebreak_rstrip l Hl) as Hnb.
    rewrite Hline in Hnb |- *.
    destruct (body ++ [c]) as [|a line] eqn:Hbc.
    { destruct body; discriminate. }
    rewrite <- Hbc in *. constructor; [|exact IH].
    destruct (markdown_entry_trimmed body c Hc) as [Ht Hlv].
    split; [exact Ht|]. split; [|exact Hlv].
    unfold markdown_entry. simpl. unfold strip.
    apply no_linebreak_lstrip, no_linebreak_rstrip, no_linebreak_drop, Hnb.
Qed.

Lemma forallb_strip (P : char -> bool) (s : str) :
  forallb P s = true -> forallb P (strip s) = true.
Proof.
  intros Hs. unfold strip.
  destruct (rstrip_prefix s) as [suf Hsuf].
  destruct (lstrip_suffix (rstrip s)) as [pre Hpre].
  rewrite Hsuf, Hpre, !forallb_app in Hs.
  apply andb_true_iff in Hs as [Hs _]. apply andb_true_iff in Hs. tauto.
Qed.

Lemma strip_empty_or_trimmed (s : str) :
  strip s = [] \/ trimmed (strip s) = true.
Proof.
  unfold strip. destruct (rstrip_ends s) as [->|(body & c & -> & Hc)].
  - left. reflexivity.
  - right. rewrite lstrip_snoc by exact Hc.
    apply trimmed_snoc; [exact Hc|apply lstrip_head].
Qed.

Lemma forallb_name_part (P : char -> bool) (line : str) :
  forallb P line = true -> forallb P (name_part line) = true.
Proof.
  destruct (name_part_spec line) as (pre & Heq & _). intros Hline.
  rewrite Heq, forallb_app in Hline. apply andb_true_iff in Hline. tauto.
Qed.

Lemma diagram_entry_level_nonneg (n : nat) (line : str) :
  0 <= (diagram_entry (Z.of_nat n) line).2.
Proof.
  unfold diagram_entry. simpl.
  pose proof (count_spaces_nonneg line) as Hc.
  assert (0 <= count_spaces line / Z.of_nat n).
  { destruct n as [|n]; [rewrite Z.div_0_r; lia|].
    apply Z.div_pos; lia. }
  destruct (existsb is_branch_glyph line); lia.
Qed.

Lemma parse_tree_entries_clean (indent_str tree_text : str) :
  Forall (fun e : entry =>
            forallb (fun c => negb (is_tree_char c)) e.1 = true
            /\ no_linebreak e.1 = true
            /\ (e.1 = [] \/ trimmed e.1 = true)
            /\ 0 <= e.2)
    (parse_tree_text_with indent_str tree_text).
Proof.
  unfold parse_tree_text_with.
  pose proof (splitlines_no_linebreak tree_text) as Hlines.
  induction Hlines as [|l ls Hl _ IH]; [constructor|].
  cbn [parse_tree_lines].
  pose proof (no_linebreak_rstrip l Hl) as Hnb.
  destruct (rstrip l) as [|a line] eqn:Hline; [exact IH|].
  constructor; [|exact IH].
  rewrite tree_entry_diagram_entry.
  split; [|split; [|split]].
  - unfold diagram_entry. cbn [fst]. apply forallb_strip.
    destruct (name_part_spec (a :: line)) as (_ & _ & Hfree & _). exact Hfree.
  - unfold diagram_entry. cbn [fst]. apply forallb_strip, forallb_name_part, Hnb.
  - unfold diagram_entry. cbn [fst]. apply strip_empty_or_trimmed.
  - apply diagram_entry_level_nonneg.
Qed.

(** ** The store of a well-built tree *)

Lemma layout_unfold (n : nat) (nm : str) (d : bool) (lv : Z) (cs : list Node) :
  layout n (mkNode nm d lv cs)
  = mkCell nm d lv (child_ids (S n) cs) :: forest_layout (S n) cs.
Proof. reflexivity. Qed.

Lemma tree_records_unfold (nm : str) (d : bool) (lv : Z) (cs : list Node) :
  tree_records (mkNode nm d lv cs) = (nm, lv) :: flat_map tree_records cs.
Proof.
  unfold tree_records. cbn [preorder map]. f_equal.
  induction cs as [|c cs IH]; [reflexivity|].
  cbn [flat_map]. rewrite map_app, IH. reflexivity.
Qed.

Lemma tree_records_length (t : Node) :
  length (tree_records t) = length (preorder t).
Proof. unfold tree_records. apply length_map. Qed.

Lemma forest_layout_length (ts : list Node) :
  Forall (fun t => forall n, length (layout n t) = length (preorder t)) ts ->
  forall n, length (forest_layout n ts) = length (flat_map preorder ts).
Proof.
  induction 1 as [|t ts Ht _ IH]; intros n; [reflexivity|].
  cbn [forest_layout flat_map]. rewrite !length_app, Ht, IH. reflexivity.
Qed.

Lemma layout_length (t : Node) :
  forall n, length (layout n t) = length (preorder t).
Proof.
  induction t as [nm d lv cs IH] using Node_ind. intros n.
  rewrite layout_unfold. cbn [preorder length].
  rewrite (forest_layout_length cs IH). reflexivity.
Qed.

Lemma forest_layout_length_all (ts : list Node) (n : nat) :
  length (forest_layout n ts) = length (flat_map preorder ts).
Proof.
  apply forest_layout_length, Forall_forall. intros t _. apply layout_length.
Qed.

Lemma read_forest_layout (cs : list Node) :
  Forall reads_layout cs ->
  forall m (before after : heap) fuel,
    length before = m ->
    (length (flat_map preorder cs) <= fuel)%nat ->
    mapM (read_node fuel (before ++ forest_layout m cs ++ after)) (child_ids m cs)
    = Some cs.
Proof.
  induction 1 as [|c cs Hc _ IH]; intros m before after fuel Hlen Hfuel;
    [reflexivity|].
  cbn [flat_map] in Hfuel. rewrite length_app in Hfuel.
  cbn [child_ids forest_layout mapM].
  rewrite <- (app_assoc (layout m c)).
  rewrite (Hc m before _ fuel Hlen) by lia. simpl.
  rewrite (app_assoc before (layout m c)).
  rewrite (IH _ (before ++ layout m c) after fuel)
    by (rewrite ?length_app, ?layout_length; lia).
  reflexivity.
Qed.

Lemma reads_layout_all (t : Node) : reads_layout t.
Proof.
  induction t as [nm d lv cs IH] using Node_ind.
  intros n before after fuel Hlen Hfuel.
  cbn [preorder length] in Hfuel.
  destruct fuel as [|fuel]; [lia|].
  rewrite layout_unfold. cbn [read_node].
  rewrite lookup_app_r by lia. rewrite Hlen, Nat.sub_diag. simpl.
  change (before ++ ?c :: forest_layout (S n) cs ++ after)
    with (before ++ [c] ++ forest_layout (S n) cs ++ after).
  rewrite (app_assoc before).
  rewrite (read_forest_layout cs IH (S n))
    by (rewrite ?length_app; simpl; lia).
  reflexivity.
Qed.

(** Reading the root of a laid-out tree, whatever follows its cells. *)
Lemma read_layout_root (t : Node) (after : heap) :
  read_tree (layout 0 t ++ after, 0%nat) = Some t.
Proof.
  unfold read_tree. cbn [fst snd].
  apply (reads_layout_all t 0%nat [] after); [reflexivity|].
  rewrite length_app, layout_length. lia.
Qed.

(** ** Building a well-built tree from its records *)

Lemma level_of_alter_push (ids : list nat) (h more : heap) (p q : nat) :
  (q < length h)%nat ->
  level_of (alter (push_children ids) p h ++ more) q = level_of h q.
Proof.
  intros Hq. rewrite level_of_app_l by (rewrite length_alter; exact Hq).
  apply level_of_push_children.
Qed.

Lemma builds_forest_of_trees (ts : list Node) :
  Forall builds_tree ts -> builds_forest ts.
Proof.
  induction 1 as [|t ts Ht _ IH];
    intros Hwell Hfall h extra p rest Hp Hdeep Habove Hhead.
  - exists extra. simpl.
    rewrite app_nil_r, (list_alter_id _ _ _ push_children_nil). auto.
  - apply Forall_cons in Hwell as [Hwt Hwts].
    apply Forall_cons in Hdeep as [Hdt Hdts].
    cbn [flat_map]. rewrite foldl_app.
    assert (Hbelow : below h (level t) p extra).
    { split; [exact Hp|]. split; [exact Hdt|].
      unfold above in Habove. rewrite Forall_forall in Habove, Hhead |- *.
      intros q Hq. split; [apply Habove, Hq|apply Hhead, Hq]. }
    destruct (Ht Hwt h extra p rest Hbelow) as (extra1 & Hrun1 & Hbelow1).
    rewrite Hrun1.
    set (h1 := alter (push_children [length h]) p h ++ layout (length h) t) in *.
    destruct Hbelow1 as (Hp1 & Hplv1 & Hextra1).
    assert (Hlvp : level_of h1 p = level_of h p).
    { apply level_of_alter_push, Hp. }
    assert (Hfall' : falling ts = true).
    { cbn [falling] in Hfall. destruct ts as [|c2 ts']; [reflexivity|].
      apply andb_true_iff in Hfall. tauto. }
    destruct (IH Hwts Hfall' h1 extra1 p rest Hp1) as (extra2 & Hrun2 & Habove2).
    + rewrite Hlvp. exact Hdts.
    + unfold above. eapply Forall_impl; [exact Hextra1|]. simpl.
      intros q [Hq Hqlv]. split; [exact Hq|]. rewrite Hlvp. lia.
    + destruct ts as [|c2 ts']; [exact I|].
      cbn [falling] in Hfall. apply andb_true_iff in Hfall as [Hle _].
      apply Z.leb_le in Hle.
      eapply Forall_impl; [exact Hextra1|]. simpl. intros q [_ Hqlv]. lia.
    + assert (Hheap :
        alter (push_children (child_ids (length h1) ts)) p h1
        ++ forest_layout (length h1) ts
        = alter (push_children (child_ids (length h) (t :: ts))) p h
          ++ forest_layout (length h) (t :: ts)).
      { unfold h1. rewrite length_app, length_alter, layout_length.
        rewrite alter_app_l by (rewrite length_alter; exact Hp).
        rewrite list_alter_alter_eq. cbn [child_ids forest_layout].
        rewrite <- app_assoc. f_equal.
        apply list_alter_ext; [|reflexivity].
        intros c _. simpl. apply push_children_app. }
      rewrite Hheap in Hrun2, Habove2.
      exists extra2. auto.
Qed.

Lemma builds_tree_all (t : Node) : builds_tree t.
Proof.
  induction t as [nm d lv cs IH] using Node_ind.
  apply builds_forest_of_trees in IH.
  intros Hwell h extra p rest (Hp & Hplv & Hextra).
  cbn [level] in Hplv, Hextra |- *.
  cbn [well_built] in Hwell.
  apply andb_true_iff in Hwell as [Hwell Hfall].
  apply andb_true_iff in Hwell as [Hflag Hkids].
  apply Bool.eqb_prop in Hflag.
  rewrite tree_records_unfold. cbn [foldl].
  set (cnew := mkCell nm d lv []).
  assert (Hstep : build_step (h, extra ++ p :: rest) (nm, lv)
                  = (alter (push_children [length h]) p h ++ [cnew],
                     length h :: p :: rest)).
  { unfold build_step, new_cell. rewrite <- Hflag. fold cnew.
    rewrite pop_while_popped.
    2:{ eapply Forall_impl; [exact Hextra|]. simpl. intros q [Hq Hqlv].
        rewrite level_of_app_l by exact Hq. exact Hqlv. }
    simpl. rewrite level_of_app_l by exact Hp.
    destruct (Z.leb_spec lv (level_of h p)) as [Hle|_]; [lia|].
    unfold add_child. rewrite alter_app_l by exact Hp. reflexivity. }
  rewrite Hstep.
  set (h2 := alter (push_children [length h]) p h ++ [cnew]).
  assert (Hlen2 : length h2 = S (length h)).
  { unfold h2. rewrite length_app, length_alter. simpl. lia. }
  assert (Hlvn : level_of h2 (length h) = lv).
  { unfold h2. rewrite level_of_at_end by apply length_alter. reflexivity. }
  assert (Hwell_cs : Forall (fun c => well_built c = true) cs
                     /\ Forall (fun c => level_of h2 (length h) < level c) cs).
  { rewrite Hlvn. clear -Hkids. induction cs as [|c cs IHcs]; [split; constructor|].
    simpl in Hkids. apply andb_true_iff in Hkids as [Hc Hcs].
    apply andb_true_iff in Hc as [Hlt Hwc]. apply Z.ltb_lt in Hlt.
    destruct (IHcs Hcs). split; constructor; auto. }
  destruct Hwell_cs as [Hwcs Hdcs].
  destruct (IH Hwcs Hfall h2 [] (length h) (p :: rest)) as (extra' & Hrun & Habove');
    [lia|exact Hdcs|constructor|destruct cs; [exact I|constructor]|].
  simpl app in Hrun at 1. rewrite Hrun.
  assert (Hheap :
    alter (push_children (child_ids (length h2) cs)) (length h) h2
    ++ forest_layout (length h2) cs
    = alter (push_children [length h]) p h
      ++ layout (length h) (mkNode nm d lv cs)).
  { rewrite Hlen2, layout_unfold. unfold h2.
    rewrite <- (length_alter (push_children [length h]) h p) at 2.
    rewrite <- (Nat.add_0_r (length (alter _ p h))) at 1.
    rewrite alter_app_r. simpl. rewrite <- app_assoc. reflexivity. }
  rewrite Hheap in *.
  exists (extra' ++ [length h]). rewrite <- app_assoc. split; [reflexivity|].
  set (hf := alter (push_children [length h]) p h
             ++ layout (length h) (mkNode nm d lv cs)) in *.
  assert (Hlvn' : level_of hf (length h) = lv).
  { unfold hf. rewrite layout_unfold, level_of_at_end by apply length_alter.
    reflexivity. }
  split; [unfold hf; rewrite length_app, length_alter; lia|].
  split; [unfold hf; rewrite level_of_alter_push by exact Hp; exact Hplv|].
  apply Forall_app. split.
  - eapply Forall_impl; [exact Habove'|]. simpl. intros q [Hq Hqlv].
    split; [exact Hq|]. rewrite Hlvn' in Hqlv. lia.
  - constructor; [|constructor]. split; [|lia].
    unfold hf. rewrite length_app, length_alter, layout_length. simpl. lia.
Qed.

(** The loop of the builder on the records of a well-built tree: the
    store is the layout of the tree, and the root is at the bottom of
    the stack under nodes deeper than it. *)
Lemma build_loop_layout (t : Node) :
  well_built_root t = true ->
  exists extra,
    foldl build_step ([new_cell (name t) true (level t)], [0%nat])
      (flat_map tree_records (children t))
    = (layout 0 t, extra ++ [0%nat])
    /\ above (layout 0 t) 0 extra.
Proof.
  destruct t as [nm d lv cs]. unfold well_built_root. cbn [name is_dir level children].
  intros Hwell.
  apply andb_true_iff in Hwell as [Hwell Hfall].
  apply andb_true_iff in Hwell as [-> Hkids].
  assert (Hwell_cs : Forall (fun c => well_built c = true) cs
                     /\ Forall (fun c => lv < level c) cs).
  { clear -Hkids. induction cs as [|c cs IHcs]; [split; constructor|].
    simpl in Hkids. apply andb_true_iff in Hkids as [Hc Hcs].
    apply andb_true_iff in Hc as [Hlt Hwc]. apply Z.ltb_lt in Hlt.
    destruct (IHcs Hcs). split; constructor; auto. }
  destruct Hwell_cs as [Hwcs Hdcs].
  assert (Hall : Forall builds_tree cs).
  { apply Forall_forall. intros c _. apply builds_tree_all. }
  destruct (builds_forest_of_trees cs Hall Hwcs Hfall
              [new_cell nm true lv] [] 0%nat [])
    as (extra & Hrun & Habove);
    [simpl; lia|exact Hdcs|constructor|destruct cs; [exact I|constructor]|].
  exists extra. split; [exact Hrun|exact Habove].
Qed.

Lemma build_tree_of_records (t : Node) :
  well_built_root t = true ->
  build_tree (tree_records t) ≫= read_tree = Some t.
Proof.
  intros Hwell. destruct (build_loop_layout t Hwell) as (extra & Hrun & _).
  destruct t as [nm d lv cs]. rewrite tree_records_unfold.
  cbn [build_tree]. cbn [name level children] in Hrun. rewrite Hrun.
  cbn [fst mbind option_bind].
  rewrite <- (app_nil_r (layout 0 _)). apply read_layout_root.
Qed.

(** ** The tree of a run of records *)

Lemma attach_unfold (leaf : Node) (nm : str) (d : bool) (lv : Z) (cs : list Node) :
  attach leaf (mkNode nm d lv cs) = mkNode nm d lv (attach_last leaf cs).
Proof. reflexivity. Qed.

Lemma attach_level (leaf t : Node) : level (attach leaf t) = level t.
Proof. destruct t. reflexivity. Qed.

Lemma attach_last_records (leaf : Node) (cs : list Node) :
  Forall (fun c => tree_records (attach leaf c)
                   = tree_records c ++ tree_records leaf) cs ->
  flat_map tree_records (attach_last leaf cs)
  = flat_map tree_records cs ++ tree_records leaf.
Proof.
  induction 1 as [|c cs Hc _ IH]; [simpl; rewrite app_nil_r; reflexivity|].
  cbn [attach_last]. destruct cs as [|c2 cs].
  - destruct (level c <? level leaf); cbn [flat_map].
    + rewrite Hc, !app_nil_r. reflexivity.
    + rewrite !app_nil_r. reflexivity.
  - cbn [flat_map] in IH |- *. rewrite IH, <- !app_assoc. reflexivity.
Qed.

Lemma attach_records (leaf t : Node) :
  tree_records (attach leaf t) = tree_records t ++ tree_records leaf.
Proof.
  induction t as [nm d lv cs IH] using Node_ind.
  rewrite attach_unfold, !tree_records_unfold, (attach_last_records leaf cs IH).
  reflexivity.
Qed.

Lemma attach_last_head (leaf c : Node) (cs : list Node) :
  match attach_last leaf (c :: cs) with
  | x :: _ => level x = level c
  | [] => False
  end.
Proof.
  cbn [attach_last]. destruct cs as [|c2 cs]; [|reflexivity].
  destruct (level c <? level leaf); [apply attach_level|reflexivity].
Qed.

Lemma attach_last_kids (leaf : Node) (lv : Z) (cs : list Node) :
  well_built leaf = true ->
  lv < level leaf ->
  Forall (fun c => well_built c = true -> level c < level leaf ->
                   well_built (attach leaf c) = true) cs ->
  forallb (fun c => (lv <? level c) && well_built c) cs = true ->
  falling cs = true ->
  forallb (fun c => (lv <? level c) && well_built c) (attach_last leaf cs) = true
  /\ falling (attach_last leaf cs) = true.
Proof.
  intros Hleaf Hlv. apply Z.ltb_lt in Hlv.
  induction 1 as [|c cs Hc _ IH]; intros Hkids Hfall.
  - simpl. rewrite Hleaf, Hlv. auto.
  - cbn [forallb] in Hkids. apply andb_true_iff in Hkids as [Hck Hkids].
    apply andb_true_iff in Hck as [Hclv Hcw].
    cbn [attach_last]. destruct cs as [|c2 cs].
    + destruct (Z.ltb_spec (level c) (level leaf)) as [Hlt|Hge].
      * cbn [forallb falling]. rewrite attach_level, Hclv, (Hc Hcw Hlt). auto.
      * apply Z.leb_le in Hge.
        cbn [forallb falling]. rewrite Hclv, Hcw, Hleaf, Hlv, Hge. auto.
    + assert (Hfall' : falling (c2 :: cs) = true /\ (level c2 <=? level c) = true).
      { cbn [falling] in Hfall. apply andb_true_iff in Hfall. tauto. }
      destruct Hfall' as [Hf2 Hle].
      destruct (IH Hkids Hf2) as [IHk IHf].
      pose proof (attach_last_head leaf c2 cs) as Hhead.
      cbn [forallb]. rewrite Hclv, Hcw, IHk. split; [reflexivity|].
      destruct (attach_last leaf (c2 :: cs)) as [|x xs]; [contradiction|].
      change (falling (c :: x :: xs))
        with ((level x <=? level c) && falling (x :: xs)).
      rewrite Hhead, Hle, IHf. reflexivity.
Qed.

Lemma attach_well_built (leaf t : Node) :
  well_built leaf = true ->
  well_built t = true -> level t < level leaf ->
  well_built (attach leaf t) = true.
Proof.
  intros Hleaf. induction t as [nm d lv cs IH] using Node_ind.
  intros Hwell Hlv. cbn [level] in Hlv.
  rewrite attach_unfold. cbn [well_built] in Hwell |- *.
  apply andb_true_iff in Hwell as [Hwell Hfall].
  apply andb_true_iff in Hwell as [Hflag Hkids].
  destruct (attach_last_kids leaf lv cs Hleaf Hlv IH Hkids Hfall) as [Hk Hf].
  rewrite Hflag, Hk, Hf. reflexivity.
Qed.

Lemma attach_well_built_root (leaf t : Node) :
  well_built leaf = true ->
  well_built_root t = true -> level t < level leaf ->
  well_built_root (attach leaf t) = true.
Proof.
  intros Hleaf Hwell Hlv. destruct t as [nm d lv cs]. cbn [level] in Hlv.
  rewrite attach_unfold. unfold well_built_root in *.
  cbn [is_dir level children] in *.
  apply andb_true_iff in Hwell as [Hwell Hfall].
  apply andb_true_iff in Hwell as [Hflag Hkids].
  assert (IH : Forall (fun c => well_built c = true -> level c < level leaf ->
                        well_built (attach leaf c) = true) cs).
  { apply Forall_forall. intros c _. apply attach_well_built, Hleaf. }
  destruct (attach_last_kids leaf lv cs Hleaf Hlv IH Hkids Hfall) as [Hk Hf].
  rewrite Hflag, Hk, Hf. reflexivity.
Qed.

Lemma leaf_of_well_built (e : entry) : well_built (leaf_of e) = true.
Proof.
  unfold leaf_of. cbn [well_built forallb falling].
  rewrite Bool.eqb_reflx. reflexivity.
Qed.

Lemma attach_name (leaf t : Node) : name (attach leaf t) = name t.
Proof. destruct t. reflexivity. Qed.

Lemma unflatten_from (run : list entry) :
  forall t,
    well_built_root t = true ->
    Forall (fun e : entry => level t < e.2) run ->
    let t' := foldl (fun t e => attach (leaf_of e) t) t run in
    well_built_root t' = true
    /\ tree_records t' = tree_records t ++ run
    /\ level t' = level t
    /\ name t' = name t.
Proof.
  induction run as [|e run IH]; intros t Hwell Hdeep; cbn [foldl].
  - rewrite app_nil_r. auto.
  - apply Forall_cons in Hdeep as [He Hdeep].
    pose proof (attach_well_built_root (leaf_of e) t (leaf_of_well_built e)
                  Hwell He) as Hwell'.
    destruct (IH (attach (leaf_of e) t) Hwell') as (Hw & Hr & Hl & Hn).
    { rewrite attach_level. exact Hdeep. }
    split; [exact Hw|].
    split; [|split; [rewrite Hl; apply attach_level|rewrite Hn; apply attach_name]].
    rewrite Hr, attach_records, <- app_assoc. destruct e as [nm lv]. reflexivity.
Qed.

Lemma deeper_run_split (lv0 : Z) (es : list entry) :
  exists suf,
    es = deeper_run lv0 es ++ suf
    /\ Forall (fun e : entry => lv0 < e.2) (deeper_run lv0 es)
    /\ match suf with
       | r :: _ => r.2 <= lv0
       | [] => True
       end.
Proof.
  induction es as [|e es (suf & Heq & Hall & Hsuf)]; [exists []; auto|].
  cbn [deeper_run]. destruct (Z.ltb_spec lv0 e.2) as [Hlt|Hge].
  - exists suf. split; [simpl; congruence|]. split; [constructor; assumption|exact Hsuf].
  - exists (e :: es). split; [reflexivity|]. split; [constructor|exact Hge].
Qed.

Lemma unflatten_facts (e0 : entry) (run : list entry) :
  Forall (fun e : entry => e0.2 < e.2) run ->
  well_built_root (unflatten e0 run) = true
  /\ tree_records (unflatten e0 run) = e0 :: run
  /\ level (unflatten e0 run) = e0.2
  /\ name (unflatten e0 run) = e0.1.
Proof.
  intros Hdeep. unfold unflatten.
  destruct (unflatten_from run (mkNode e0.1 true e0.2 []) eq_refl Hdeep)
    as (Hw & Hr & Hl & Hn).
  split; [exact Hw|]. split; [rewrite Hr; destruct e0; reflexivity|].
  split; [exact Hl|exact Hn].
Qed.

(** ** Records that are not deeper than the root *)

(** Once the store holds the cells [h] and every reference on the stack
    is past them, the loop leaves those cells as they are. *)
Lemma build_loop_keeps (more : list entry) (h : heap) :
  forall (h1 : heap) (stack : list nat),
    Forall (fun q => (length h <= q)%nat) stack ->
    exists h', (foldl build_step (h ++ h1, stack) more).1 = h ++ h'.
Proof.
  induction more as [|[nm lv] more IH]; intros h1 stack Hstack; cbn [foldl].
  - exists h1. reflexivity.
  - unfold build_step at 2.
    set (cnew := new_cell nm (endswith nm [SLASH]) lv).
    set (hh := (h ++ h1) ++ [cnew]).
    assert (Hkept : Forall (fun q => (length h <= q)%nat) (pop_while hh lv stack)).
    { apply Forall_forall. intros q Hq. apply pop_while_subset in Hq.
      rewrite Forall_forall in Hstack. auto. }
    destruct (pop_while hh lv stack) as [|top kept] eqn:Hpop.
    + unfold hh. rewrite <- app_assoc. apply IH.
      constructor; [rewrite length_app; lia|constructor].
    + apply Forall_cons in Hkept as [Htop Hkept].
      unfold add_child, hh. rewrite <- app_assoc.
      rewrite alter_app_r_alt by exact Htop.
      rewrite length_app. apply IH.
      constructor; [lia|]. constructor; [exact Htop|exact Hkept].
Qed.

Lemma pop_while_all (h : heap) (lv : Z) (stack : list nat) :
  Forall (fun q => lv <= level_of h q) stack -> pop_while h lv stack = [].
Proof.
  intros Hall. rewrite <- (app_nil_r stack), pop_while_popped by exact Hall.
  reflexivity.
Qed.

(** After the records of a tree, a record that is not deeper than the
    root empties the stack; the cells of the tree stay as they are. *)
Lemma build_loop_after_tree (t : Node) (extra : list nat) (suf : list entry) :
  above (layout 0 t) 0 extra ->
  match suf with
  | r :: _ => r.2 <= level t
  | [] => True
  end ->
  exists h', (foldl build_step (layout 0 t, extra ++ [0%nat]) suf).1
             = layout 0 t ++ h'.
Proof.
  intros Habove Hsuf. destruct suf as [|[nm lv] more].
  - exists []. rewrite app_nil_r. reflexivity.
  - cbn [foldl]. unfold build_step at 2. cbn [snd] in Hsuf.
    set (cnew := new_cell nm (endswith nm [SLASH]) lv).
    assert (Hroot : level_of (layout 0 t) 0 = level t).
    { destruct t. reflexivity. }
    assert (Hlen : (0 < length (layout 0 t))%nat).
    { rewrite layout_length. destruct t. simpl. lia. }
    rewrite pop_while_all.
    + apply (build_loop_keeps more (layout 0 t) [cnew]).
      constructor; [lia|constructor].
    + apply Forall_app. split.
      * eapply Forall_impl; [exact Habove|]. simpl. intros q [Hq Hqlv].
        rewrite level_of_app_l by exact Hq. lia.
      * constructor; [|constructor].
        rewrite level_of_app_l by exact Hlen. lia.
Qed.

(** The tree [build_tree] gives for a first record and the records after
    it. *)
Lemma build_tree_unflatten (e0 : entry) (rest : list entry) :
  build_tree (e0 :: rest) ≫= read_tree
  = Some (unflatten e0 (deeper_run e0.2 rest)).
Proof.
  destruct (deeper_run_split e0.2 rest) as (suf & Hsplit & Hdeep & Hsuf).
  set (run := deeper_run e0.2 rest) in *.
  destruct (unflatten_facts e0 run Hdeep) as (Hwell & Hrec & Hlv & Hnm).
  set (t := unflatten e0 run) in *.
  destruct (build_loop_layout t Hwell) as (extra & Hrun & Habove).
  assert (Hkids : flat_map tree_records (children t) = run).
  { destruct t as [nm d lv cs]. rewrite tree_records_unfold in Hrec.
    injection Hrec as _ Hr. exact Hr. }
  rewrite Hkids, Hlv, Hnm in Hrun.
  destruct e0 as [nm0 lv0]. cbn [build_tree fst snd] in *.
  rewrite Hsplit, foldl_app, Hrun.
  destruct (build_loop_after_tree t extra suf Habove) as (h' & Hh').
  { rewrite Hlv. exact Hsuf. }
  rewrite Hh'. cbn [mbind option_bind]. apply read_layout_root.
Qed.

(** ** The outline of a built tree, parsed again *)

Lemma splitlines_terminated (ls : list str) :
  Forall (fun l => no_linebreak l = true) ls ->
  splitlines (concat (map (fun l => l ++ [NEWLINE]) ls)) = ls.
Proof.
  induction 1 as [|l ls Hl _ IH]; [reflexivity|].
  cbn [map concat]. rewrite <- app_assoc. simpl app at 2.
  rewrite splitlines_line by exact Hl. rewrite IH. reflexivity.
Qed.

Lemma repeat_str_spaces (lv : Z) :
  repeat_str (lit "    ") lv = replicate (4 * Z.to_nat lv) SPACE.
Proof.
  unfold repeat_str. induction (Z.to_nat lv) as [|k IH]; [reflexivity|].
  replace (4 * S k)%nat with (4 + 4 * k)%nat by lia.
  cbn [replicate concat]. rewrite IH. reflexivity.
Qed.

Lemma leading_spaces_replicate (k : nat) (nm : str) :
  match nm with a :: _ => is_space a = false | [] => True end ->
  leading_spaces (replicate k SPACE ++ nm) = Z.of_nat k.
Proof.
  intros Hnm. induction k as [|k IH].
  - destruct nm as [|a nm]; [reflexivity|]. simpl.
    destruct (N.eqb_spec a SPACE) as [->|_]; [discriminate|reflexivity].
  - cbn [replicate app leading_spaces]. rewrite IH.
    change (SPACE =? SPACE)%N with true. cbv iota. lia.
Qed.

(** The record read from the line the outline renderer writes for a
    trimmed name. *)
Lemma markdown_entry_of_line (lv : Z) (nm : str) :
  trimmed nm = true -> 0 <= lv ->
  let line := repeat_str (lit "    ") lv ++ nm in
  rstrip line = line /\ line <> [] /\ markdown_entry line = (nm, 4 * lv).
Proof.
  intros Ht Hlv line. subst line.
  destruct (trimmed_ends nm Ht) as (body & c & Hnm & Hc & Hfirst).
  destruct (trimmed_strip nm Ht) as (Hne & _ & _ & Hstrip).
  rewrite repeat_str_spaces.
  split; [|split].
  - rewrite Hnm, app_assoc. apply rstrip_snoc, Hc.
  - destruct nm; [contradiction|]. destruct (replicate _ _); discriminate.
  - unfold markdown_entry.
    rewrite leading_spaces_replicate
      by (destruct nm; [exact I|exact Hfirst]).
    rewrite Nat2Z.id.
    rewrite <- (length_replicate (4 * Z.to_nat lv) SPACE) at 1.
    rewrite drop_app_length, Hstrip. f_equal. lia.
Qed.

Lemma parse_markdown_lines_cons (l : str) (ls : list str) :
  rstrip l = l -> l <> [] ->
  parse_markdown_lines (l :: ls) = markdown_entry l :: parse_markdown_lines ls.
Proof.
  intros Hr Hne. cbn [parse_markdown_lines]. rewrite Hr.
  destruct l; [contradiction|reflexivity].
Qed.

Lemma parse_markdown_lines_of_records (es : list entry) :
  Forall (fun e : entry => trimmed e.1 = true /\ 0 <= e.2) es ->
  parse_markdown_lines (map outline_text_line es)
  = map (fun e : entry => (e.1, 4 * e.2)) es.
Proof.
  induction 1 as [|[nm lv] es [Ht Hlv] _ IH]; [reflexivity|].
  cbn [map]. cbn [fst snd] in Ht, Hlv.
  destruct (markdown_entry_of_line lv nm Ht Hlv) as (Hr & Hne & Hentry).
  unfold outline_text_line at 1. cbn [fst snd].
  rewrite parse_markdown_lines_cons, Hentry, IH by assumption. reflexivity.
Qed.

Lemma no_hidden_node_levels (t : Node) :
  Forall (fun n => 0 <= level n) (flat_map preorder (children t)) ->
  no_hidden_node t = true.
Proof.
  induction t as [nm d lv cs IH] using Node_ind. cbn [children no_hidden_node].
  induction cs as [|c cs IHcs]; intros Hall; [reflexivity|].
  apply Forall_cons in IH as [IHc IH].
  cbn [flat_map] in Hall. apply Forall_app in Hall as [Hc Hcs].
  rewrite preorder_unfold in Hc. apply Forall_cons in Hc as [Hlv Hc].
  cbn [forallb]. rewrite (IHc Hc), (IHcs IH Hcs), andb_true_r.
  destruct (Z.eqb_spec (level c) (-1)) as [Heq|_]; [lia|reflexivity].
Qed.

Lemma scale_levels_level (k : Z) (t : Node) :
  level (scale_levels k t) = k * level t.
Proof. destruct t. reflexivity. Qed.

Lemma tree_records_scale (k : Z) (t : Node) :
  tree_records (scale_levels k t)
  = map (fun e : entry => (e.1, k * e.2)) (tree_records t).
Proof.
  induction t as [nm d lv cs IH] using Node_ind.
  cbn [scale_levels]. rewrite !tree_records_unfold. cbn [map fst snd]. f_equal.
  induction cs as [|c cs IHcs]; [reflexivity|].
  apply Forall_cons in IH as [IHc IH].
  cbn [map flat_map]. rewrite map_app, IHc, (IHcs IH). reflexivity.
Qed.

Lemma falling_scale (cs : list Node) :
  falling cs = true -> falling (map (scale_levels 4) cs) = true.
Proof.
  induction cs as [|c cs IH]; [reflexivity|].
  destruct cs as [|c2 cs]; [reflexivity|].
  change (falling (c :: c2 :: cs))
    with ((level c2 <=? level c) && falling (c2 :: cs)).
  change (falling (map (scale_levels 4) (c :: c2 :: cs)))
    with ((level (scale_levels 4 c2) <=? level (scale_levels 4 c))
          && falling (map (scale_levels 4) (c2 :: cs))).
  intros Hf. apply andb_true_iff in Hf as [Hle Hf].
  rewrite (IH Hf), !scale_levels_level, andb_true_r.
  apply Z.leb_le in Hle. apply Z.leb_le. lia.
Qed.

Lemma well_built_scale (t : Node) :
  well_built t = true -> well_built (scale_levels 4 t) = true.
Proof.
  induction t as [nm d lv cs IH] using Node_ind. cbn [scale_levels well_built].
  intros Hwell. apply andb_true_iff in Hwell as [Hwell Hfall].
  apply andb_true_iff in Hwell as [Hflag Hkids].
  rewrite Hflag, (falling_scale cs Hfall), andb_true_r. simpl.
  clear Hfall Hflag. induction cs as [|c cs IHcs]; [reflexivity|].
  apply Forall_cons in IH as [IHc IH].
  cbn [forallb] in Hkids. apply andb_true_iff in Hkids as [Hc Hkids].
  apply andb_true_iff in Hc as [Hlt Hwc].
  cbn [map forallb]. rewrite (IHc Hwc), (IHcs IH Hkids), scale_levels_level.
  rewrite !andb_true_r. apply Z.ltb_lt in Hlt. apply Z.ltb_lt. lia.
Qed.

Lemma well_built_root_respaced (t : Node) :
  well_built_root t = true -> 0 <= level t ->
  well_built_root (respaced t) = true.
Proof.
  destruct t as [nm d lv cs]. unfold well_built_root, respaced.
  cbn [name is_dir level children]. intros Hwell Hlv.
  apply andb_true_iff in Hwell as [Hwell Hfall].
  apply andb_true_iff in Hwell as [Hflag Hkids].
  rewrite Hflag, (falling_scale cs Hfall), andb_true_r. simpl.
  clear Hfall Hflag. induction cs as [|c cs IHcs]; [reflexivity|].
  cbn [forallb] in Hkids. apply andb_true_iff in Hkids as [Hc Hkids].
  apply andb_true_iff in Hc as [Hlt Hwc].
  cbn [map forallb].
  rewrite (well_built_scale c Hwc), (IHcs Hkids), scale_levels_level.
  rewrite !andb_true_r. apply Z.ltb_lt in Hlt. apply Z.ltb_lt. lia.
Qed.

Lemma tree_records_respaced (t : Node) :
  tree_records (respaced t)
  = (name t, 0) :: map (fun e : entry => (e.1, 4 * e.2))
                     (flat_map tree_records (children t)).
Proof.
  unfold respaced. rewrite tree_records_unfold. f_equal.
  induction (children t) as [|c cs IH]; [reflexivity|].
  cbn [map flat_map]. rewrite map_app, tree_records_scale, IH. reflexivity.
Qed.

Lemma no_linebreak_outline_text_line (e : entry) :
  no_linebreak e.1 = true -> no_linebreak (outline_text_line e) = true.
Proof.
  intros He. unfold outline_text_line.
  rewrite no_linebreak_app, He, repeat_str_spaces, andb_true_r.
  induction (4 * Z.to_nat e.2)%nat as [|k IH]; [reflexivity|]. exact IH.
Qed.

(** The outline of a tree whose records are trimmed, free of line
    boundaries and not negative in level parses to the records with the
    root at level 0 and every other level multiplied by four. *)
Lemma parse_generated_markdown (t : Node) :
  Forall (fun e : entry =>
            trimmed e.1 = true /\ no_linebreak e.1 = true /\ 0 <= e.2)
    (tree_records t) ->
  parse_markdown (generate_markdown (Some t)) = tree_records (respaced t).
Proof.
  intros Hrec. destruct t as [nm d lv cs].
  rewrite tree_records_unfold in Hrec.
  apply Forall_cons in Hrec as [(Ht0 & Hnb0 & Hlv0) Hrec].
  cbn [fst snd] in Ht0, Hnb0, Hlv0.
  assert (Hrec' : flat_map tree_records cs
                  = map node_record (flat_map preorder cs)).
  { clear. induction cs as [|c cs IH]; [reflexivity|].
    cbn [flat_map]. rewrite map_app, IH. reflexivity. }
  cbn [generate_markdown].
  rewrite generate_markdown_recursive_lines; [|discriminate|].
  2:{ apply no_hidden_node_levels. cbn [children].
      rewrite Hrec' in Hrec. rewrite Forall_map in Hrec.
      eapply Forall_impl; [exact Hrec|]. simpl. tauto. }
  rewrite tree_records_respaced. cbn [name children].
  set (recs := (nm, 0) :: flat_map tree_records cs).
  assert (Htext :
    (repeat_str (lit "    ") 0 ++ nm ++ [NEWLINE])
    ++ concat (outline_line <$> flat_map preorder cs)
    = concat (map (fun l => l ++ [NEWLINE]) (map outline_text_line recs))).
  { unfold recs. cbn [map concat]. f_equal.
    rewrite Hrec'. clear. induction (flat_map preorder cs) as [|n ns IH];
      [reflexivity|].
    cbn [fmap list_fmap map concat] in *. rewrite <- IH.
    unfold outline_line, outline_text_line, node_record. cbn [fst snd].
    rewrite <- !app_assoc. reflexivity. }
  rewrite Htext. unfold parse_markdown.
  assert (Hall : Forall (fun e : entry =>
                   trimmed e.1 = true /\ no_linebreak e.1 = true /\ 0 <= e.2) recs).
  { constructor; [cbn [fst snd]; auto with zarith|exact Hrec]. }
  rewrite splitlines_terminated.
  2:{ rewrite Forall_map. eapply Forall_impl; [exact Hall|]. simpl.
      intros e (_ & Hnb & _). apply no_linebreak_outline_text_line, Hnb. }
  rewrite parse_markdown_lines_of_records.
  2:{ eapply Forall_impl; [exact Hall|]. simpl. tauto. }
  reflexivity.
Qed.

Lemma Forall_deeper_run (P : entry -> Prop) (lv0 : Z) (es : list entry) :
  Forall P es -> Forall P (deeper_run lv0 es).
Proof.
  induction 1 as [|e es He _ IH]; [constructor|].
  cbn [deeper_run]. destruct (lv0 <? e.2); [constructor; assumption|constructor].
Qed.

(** X6: the tree built from an outline, rendered as an outline and
    parsed and built again, is the same tree with the root at level 0
    and every other level multiplied by four: same shape, names and
    directory flags. *)
Theorem outline_round_trip (text : str) (t : Node) :
  tree_of_markdown text = Some t ->
  tree_of_markdown (generate_markdown (Some t)) = Some (respaced t).
Proof.
  unfold tree_of_markdown at 1. intros Hbuild.
  pose proof (parse_markdown_entries_trimmed text) as Hrecs.
  destruct (parse_markdown text) as [|e0 rest]; [discriminate|].
  rewrite build_tree_unflatten in Hbuild. injection Hbuild as Ht.
  apply Forall_cons in Hrecs as [He0 Hrest].
  destruct (deeper_run_split e0.2 rest) as (suf & _ & Hdeep & _).
  destruct (unflatten_facts e0 _ Hdeep) as (Hwell & Hrec & Hlv & _).
  rewrite Ht in Hwell, Hrec, Hlv.
  unfold tree_of_markdown. rewrite parse_generated_markdown.
  - apply build_tree_of_records, well_built_root_respaced; [exact Hwell|].
    rewrite Hlv. apply He0.
  - rewrite Hrec. constructor; [exact He0|].
    apply Forall_deeper_run, Hrest.
Qed.

(** ** A diagram of directories, rendered again *)

Lemma clean_name_of_record (nm : str) :
  forallb (fun c => negb (is_tree_char c)) nm = true ->
  no_linebreak nm = true ->
  nm = [] \/ trimmed nm = true ->
  clean_name nm = true.
Proof.
  intros Hfree Hnb Htrim. unfold clean_name. apply andb_true_iff. split.
  - unfold no_linebreak in Hnb. clear Htrim.
    induction nm as [|c nm IH]; [reflexivity|].
    cbn [forallb] in *. apply andb_true_iff in Hfree as [Hc Hfree].
    apply andb_true_iff in Hnb as [Hb Hnb].
    rewrite Hc, Hb, (IH Hfree Hnb). reflexivity.
  - destruct Htrim as [->|Ht]; [reflexivity|].
    destruct (trimmed_ends nm Ht) as (_ & _ & _ & _ & Hfirst).
    destruct nm as [|a nm]; [reflexivity|]. rewrite Hfirst. reflexivity.
Qed.

Lemma directory_tree_of_records (t : Node) :
  well_built t = true ->
  Forall (fun e : entry => clean_name e.1 = true /\ endswith e.1 [SLASH] = true)
    (tree_records t) ->
  directory_tree t = true.
Proof.
  induction t as [nm d lv cs IH] using Node_ind. intros Hwell Hrec.
  rewrite tree_records_unfold in Hrec.
  apply Forall_cons in Hrec as [[Hclean Hend] Hrec]. cbn [fst] in Hclean, Hend.
  cbn [well_built] in Hwell.
  apply andb_true_iff in Hwell as [Hwell _].
  apply andb_true_iff in Hwell as [Hflag Hkids].
  apply Bool.eqb_prop in Hflag. rewrite Hend in Hflag. subst d.
  cbn [directory_tree]. rewrite Hend, Hclean. simpl.
  revert IH Hkids Hrec.
  induction cs as [|c cs IHcs]; intros IH Hkids Hrec; [reflexivity|].
  apply Forall_cons in IH as [IHc IH].
  cbn [flat_map] in Hrec. apply Forall_app in Hrec as [Hc Hcs].
  cbn [forallb] in Hkids. apply andb_true_iff in Hkids as [Hck Hkids].
  apply andb_true_iff in Hck as [_ Hwc].
  cbn [forallb]. rewrite (IHc Hwc Hc), (IHcs IH Hkids Hcs). reflexivity.
Qed.

Lemma directory_tree_of_root_records (t : Node) :
  well_built_root t = true ->
  Forall (fun e : entry => clean_name e.1 = true /\ endswith e.1 [SLASH] = true)
    (tree_records t) ->
  directory_tree t = true.
Proof.
  destruct t as [nm d lv cs]. unfold well_built_root.
  cbn [is_dir level children]. intros Hwell Hrec.
  apply andb_true_iff in Hwell as [Hwell _].
  apply andb_true_iff in Hwell as [-> Hkids].
  rewrite tree_records_unfold in Hrec.
  apply Forall_cons in Hrec as [[Hclean Hend] Hrec]. cbn [fst] in Hclean, Hend.
  cbn [directory_tree]. rewrite Hend, Hclean. simpl.
  revert Hkids Hrec.
  induction cs as [|c cs IHcs]; intros Hkids Hrec; [reflexivity|].
  cbn [flat_map] in Hrec. apply Forall_app in Hrec as [Hc Hcs].
  cbn [forallb] in Hkids. apply andb_true_iff in Hkids as [Hck Hkids].
  apply andb_true_iff in Hck as [_ Hwc].
  cbn [forallb].
  rewrite (directory_tree_of_records c Hwc Hc), (IHcs Hkids Hcs). reflexivity.
Qed.

Lemma diagram_round_trip_directory_tree (t : Node) :
  directory_tree t = true ->
  diagram_round_trip t = Some (set_levels 1 t).
Proof.
  intros Htree. unfold diagram_round_trip.
  rewrite (parse_generated_tree_text t Htree).
  rewrite <- (flagged_directory_tree t 1 Htree).
  destruct t as [nm d lv0 cs].
  rewrite build_tree_records. cbn [mbind option_bind].
  rewrite read_built_tree. cbn [flagged].
  simpl in Htree. apply andb_true_iff in Htree as [Htree _].
  apply andb_true_iff in Htree as [Htree _].
  apply andb_true_iff in Htree as [_ ->]. reflexivity.
Qed.

(** X9: the tree built from a tree diagram in which every name ends in
    [/] comes back from a further rendering, parsing and building with
    the same shape, names and flags, and with level 1 at the root and
    one more per generation. *)
Theorem directory_diagram_round_trip (tree_text : str) (t : Node) :
  build_tree (parse_tree_text tree_text) ≫= read_tree = Some t ->
  Forall (fun e : entry => endswith e.1 [SLASH] = true) (parse_tree_text tree_text) ->
  diagram_round_trip t = Some (set_levels 1 t).
Proof.
  intros Hbuild Hdirs.
  pose proof (parse_tree_entries_clean DEFAULT_INDENT tree_text) as Hrecs.
  fold parse_tree_text in Hrecs.
  destruct (parse_tree_text tree_text) as [|e0 rest]; [discriminate|].
  rewrite build_tree_unflatten in Hbuild. injection Hbuild as Ht.
  destruct (deeper_run_split e0.2 rest) as (suf & _ & Hdeep & _).
  destruct (unflatten_facts e0 _ Hdeep) as (Hwell & Hrec & _ & _).
  rewrite Ht in Hwell, Hrec.
  apply diagram_round_trip_directory_tree, directory_tree_of_root_records;
    [exact Hwell|].
  rewrite Hrec.
  assert (Hall : Forall (fun e : entry =>
                   clean_name e.1 = true /\ endswith e.1 [SLASH] = true)
                   (e0 :: rest)).
  { rewrite Forall_forall in Hrecs, Hdirs |- *. intros e He.
    destruct (Hrecs e He) as (Hfree & Hnb & Htrim & _).
    split; [apply clean_name_of_record; assumption|apply Hdirs, He]. }
  apply Forall_cons in Hall as [H0 Hall].
  constructor; [exact H0|apply Forall_deeper_run, Hall].
Qed.

(** ** The callers *)

Lemma parse_markdown_lines_blank (lines : list str) :
  Forall (fun l => rstrip l = []) lines -> parse_markdown_lines lines = [].
Proof.
  induction 1 as [|l ls Hl _ IH]; [reflexivity|].
  cbn [parse_markdown_lines]. rewrite Hl. exact IH.
Qed.

Lemma parse_tree_lines_blank (n : Z) (lines : list str) :
  Forall (fun l => rstrip l = []) lines -> parse_tree_lines n lines = [].
Proof.
  induction 1 as [|l ls Hl _ IH]; [reflexivity|].
  cbn [parse_tree_lines]. rewrite Hl. exact IH.
Qed.

Lemma entries_of_blank (ty : input_type) (input_text : str) :
  Forall (fun l => rstrip l = []) (splitlines input_text) ->
  entries_of ty input_text = [].
Proof.
  intros Hblank. destruct ty; cbn [entries_of].
  - apply parse_markdown_lines_blank, Hblank.
  - apply parse_tree_lines_blank, Hblank.
Qed.

Section MainFacts.
Context `{FileSystem fs}.

Lemma main_after_read_entries (file_extension input_text root_dir : str) (s : fs)
    (ty : input_type) :
  detect_input_type input_text file_extension = Some ty ->
  main_after_read file_extension input_text root_dir s
  = match entries_of ty input_text with
    | [] => Some AttributeError
    | e0 :: rest =>
        Some match create_files_and_dirs
                     (unflatten e0 (deeper_run e0.2 rest)) root_dir s with
             | Some s' => Created s'
             | None => OsError
             end
    end.
Proof.
  intros Hty. unfold main_after_read. rewrite Hty.
  assert (Hstruct : forall entries : list entry,
    match match entries with
          | [] => EmptyString
          | _ :: _ => match build_tree entries with
                      | Some r => BuiltNode r
                      | None => NoNode
                      end
          end with
    | EmptyString | NoNode => Some AttributeError
    | BuiltNode r =>
        t ← read_tree r;
        Some match create_files_and_dirs t root_dir s with
             | Some s' => Created s'
             | None => OsError
             end
    end
    = match entries with
      | [] => Some AttributeError
      | e0 :: rest =>
          Some match create_files_and_dirs
                       (unflatten e0 (deeper_run e0.2 rest)) root_dir s with
               | Some s' => Created s'
               | None => OsError
               end
      end).
  { intros [|e0 rest]; [reflexivity|].
    pose proof (build_tree_unflatten e0 rest) as Hbuild.
    destruct (build_tree (e0 :: rest)) as [r|]; [|discriminate].
    cbn [mbind option_bind] in Hbuild. rewrite Hbuild. reflexivity. }
  destruct ty; apply Hstruct.
Qed.

(** X10: with a recognised extension and an input in which every
    line is blank, [main] ends in the [AttributeError]: nothing is
    reported and no filesystem operation is made. *)
Theorem main_blank_input (file_extension input_text root_dir : str) (s : fs)
    (ty : input_type) :
  detect_input_type input_text file_extension = Some ty ->
  Forall (fun l => rstrip l = []) (splitlines input_text) ->
  main_after_read file_extension input_text root_dir s = Some AttributeError.
Proof.
  intros Hty Hblank.
  rewrite (main_after_read_entries _ _ _ _ ty Hty), (entries_of_blank ty _ Hblank).
  reflexivity.
Qed.

(** X11: when [main] ends with the structure created, the
    input has a first record, the path of that record's name under the
    destination is a directory afterwards, whatever the name looks like,
    and every regular file that was there has kept its content. *)
Theorem main_creates_root (file_extension input_text root_dir : str) (s s' : fs) :
  main_after_read file_extension input_text root_dir s = Some (Created s') ->
  files_kept s s'
  /\ exists ty e0 rest,
       detect_input_type input_text file_extension = Some ty
       /\ entries_of ty input_text = e0 :: rest
       /\ is_directory (path_join root_dir e0.1) s' = true.
Proof.
  intros Hmain.
  destruct (detect_input_type input_text file_extension) as [ty|] eqn:Hty.
  2:{ unfold main_after_read in Hmain. rewrite Hty in Hmain. discriminate. }
  rewrite (main_after_read_entries _ _ _ _ ty Hty) in Hmain.
  destruct (entries_of ty input_text) as [|e0 rest] eqn:Hentries; [discriminate|].
  destruct (deeper_run_split e0.2 rest) as (suf & _ & Hdeep & _).
  destruct (unflatten_facts e0 _ Hdeep) as (Hwell & _ & _ & Hname).
  set (t := unflatten e0 (deeper_run e0.2 rest)) in *.
  destruct (create_files_and_dirs t root_dir s) as [s1|] eqn:Hrun; [|discriminate].
  injection Hmain as ->.
  split; [apply (create_files_and_dirs_keeps _ _ _ _ Hrun)|].
  exists ty, e0, rest. split; [reflexivity|]. split; [exact Hentries|].
  pose proof (create_files_and_dirs_materializes t root_dir s s' s' Hrun
                (entries_kept_refl s')) as Hmat.
  destruct t as [nm d lv cs]. unfold well_built_root in Hwell.
  cbn [is_dir name] in Hwell, Hname.
  apply andb_true_iff in Hwell as [Hwell _].
  apply andb_true_iff in Hwell as [-> _].
  apply materialized_unfold in Hmat. simpl in Hmat. rewrite Hname in Hmat.
  apply Hmat.
Qed.
End MainFacts.

(** ** The further properties, stated *)

(** X1: every record of the outline parser has a name that is not empty,
    has no whitespace at either end and no line boundary inside, and a
    level that is not negative. *)
Theorem outline_parser_records (markdown_text : str) :
  Forall (fun e : entry =>
            trimmed e.1 = true /\ no_linebreak e.1 = true /\ 0 <= e.2)
    (parse_markdown markdown_text).
Proof. apply parse_markdown_entries_trimmed. Qed.

(** X2: every record of the tree-diagram parser, whatever the indentation
    string, has a name with no space and no tree-drawing character in it,
    no line boundary, and no whitespace at either end (the name may be
    empty), and a level that is not negative. *)
Theorem diagram_parser_records (indent_str tree_text : str) :
  Forall (fun e : entry =>
            forallb (fun c => negb (is_tree_char c)) e.1 = true
            /\ no_linebreak e.1 = true
            /\ (e.1 = [] \/ trimmed e.1 = true)
            /\ 0 <= e.2)
    (parse_tree_text_with indent_str tree_text).
Proof. apply parse_tree_entries_clean. Qed.

(** X3: for every list of records that is not empty, [build_tree] gives a
    tree that can be read off its root, and the nodes of that tree in
    pre-order are the first record followed by the records after it up
    to, and without, the first one that is not deeper than the first
    record: that record and all later ones are not in the tree. *)
Theorem build_tree_reads_preorder (e0 : entry) (rest : list entry) :
  exists t,
    build_tree (e0 :: rest) ≫= read_tree = Some t
    /\ tree_records t = e0 :: deeper_run e0.2 rest.
Proof.
  exists (unflatten e0 (deeper_run e0.2 rest)).
  split; [apply build_tree_unflatten|].
  destruct (deeper_run_split e0.2 rest) as (suf & _ & Hdeep & _).
  apply (unflatten_facts e0 _ Hdeep).
Qed.

(** X4: in every tree [build_tree] gives, the root is flagged a
    directory, every other node is flagged a directory exactly when its
    name ends in [/], every child has a greater level than its parent,
    and among the children of a node the levels never rise from one
    child to the next. *)
Theorem built_tree_well_built (entries : list entry) (t : Node) :
  build_tree entries ≫= read_tree = Some t ->
  well_built_root t = true.
Proof.
  intros Hbuild. destruct entries as [|e0 rest]; [discriminate|].
  rewrite build_tree_unflatten in Hbuild. injection Hbuild as <-.
  destruct (deeper_run_split e0.2 rest) as (suf & _ & Hdeep & _).
  apply (unflatten_facts e0 _ Hdeep).
Qed.

Lemma built_tree_well_built_witness :
  well_built_root expected_example_tree = true.
Proof.
  apply (built_tree_well_built example_entries expected_example_tree).
  vm_compute. reflexivity.
Defined.

(** X5: for a tree with the flags and levels of a built tree (the root a
    directory, the other flags by the names, children deeper than their
    parent, sibling levels never rising), [build_tree] applied to the
    records of the tree in pre-order gives the tree back. *)
Theorem build_tree_inverts_records (t : Node) :
  well_built_root t = true ->
  build_tree (tree_records t) ≫= read_tree = Some t.
Proof. apply build_tree_of_records. Qed.

Lemma build_tree_inverts_records_witness :
  build_tree (tree_records expected_example_tree) ≫= read_tree
  = Some expected_example_tree.
Proof.
  apply (build_tree_inverts_records expected_example_tree). reflexivity.
Defined.

Lemma outline_round_trip_witness :
  tree_of_markdown (generate_markdown (Some expected_example_tree))
  = Some (respaced expected_example_tree).
Proof.
  apply (outline_round_trip outline_example expected_example_tree).
  vm_compute. reflexivity.
Defined.

(** X12: for a tree whose names are not empty, have no whitespace at
    either end and no line boundary inside, and whose levels are not
    negative, the outline parser reads from the rendered outline one
    record per node in pre-order: the root at level 0 and every other
    node at four times its stored level. *)
Theorem outline_parses_to_respaced_records (t : Node) :
  Forall (fun e : entry =>
            trimmed e.1 = true /\ no_linebreak e.1 = true /\ 0 <= e.2)
    (tree_records t) ->
  parse_markdown (generate_markdown (Some t)) = tree_records (respaced t).
Proof. apply parse_generated_markdown. Qed.

Lemma outline_parses_to_respaced_records_witness :
  parse_markdown (generate_markdown (Some expected_example_tree))
  = tree_records (respaced expected_example_tree).
Proof.
  apply (outline_parses_to_respaced_records expected_example_tree).
  unfold tree_records, expected_example_tree. simpl.
  repeat (apply Forall_cons_2;
          [split; [reflexivity|split; [reflexivity|vm_compute; discriminate]]|]).
  apply Forall_nil_2.
Defined.

(** X8: the text of the tree-diagram renderer is the rule of its
    description (prefix, connector by position among the siblings, name,
    [/] for a directory, children in stored order under the extended
    prefix, the root as a last child with the empty prefix) applied to
    the tree with the last character of every stored name removed. *)
Theorem tree_text_follows_rule (t : Node) :
  generate_tree_text (Some t) = diagram_text [] true (without_last_char t).
Proof. apply generate_tree_text_recursive_rule. Qed.

Lemma directory_diagram_round_trip_witness :
  diagram_round_trip (set_levels 1 directory_example_tree)
  = Some (set_levels 1 (set_levels 1 directory_example_tree)).
Proof.
  apply (directory_diagram_round_trip directory_example_diagram
           (set_levels 1 directory_example_tree)).
  - vm_compute. reflexivity.
  - vm_compute. repeat constructor.
Defined.

Section MaterializerPostcondition.
Context `{FileSystem fs}.

(** X7: after a run of the materializer that succeeds, the path of every
    directory node reached through directory nodes is a directory, and
    the path of every file node reached so exists; what lies below a
    file node is not visited: the run is the same as on the tree with
    everything below file nodes cut off. *)
Theorem materializer_creates_tree
    (node : Node) (current_path : str) (s s1 : fs) :
  create_files_and_dirs node current_path s = Some s1 ->
  materialized node current_path s1
  /\ create_files_and_dirs (visited_part node) current_path s = Some s1.
Proof.
  intros Hrun. split.
  - apply (create_files_and_dirs_materializes _ _ _ _ _ Hrun).
    apply entries_kept_refl.
  - rewrite <- create_files_and_dirs_visited_part. exact Hrun.
Qed.
End MaterializerPostcondition.

Lemma materializer_creates_tree_witness :
  materialized dir_below_file_tree (lit ".") materialized_dir_below_file
  /\ create_files_and_dirs (visited_part dir_below_file_tree) (lit ".") empty_state
     = Some materialized_dir_below_file.
Proof.
  apply (materializer_creates_tree dir_below_file_tree (lit ".")
           empty_state materialized_dir_below_file).
  vm_compute. reflexivity.
Defined.

Lemma main_blank_input_witness :
  main_after_read (lit ".MD") blank_text (lit ".") empty_state
  = Some AttributeError.
Proof.
  apply (main_blank_input (lit ".MD") blank_text (lit ".") empty_state markdown).
  - reflexivity.
  - vm_compute. repeat constructor.
Defined.

Lemma main_creates_root_witness :
  files_kept kept_file_state materialized_example
  /\ exists ty e0 rest,
       detect_input_type outline_example (lit ".md") = Some ty
       /\ entries_of ty outline_example = e0 :: rest
       /\ is_directory (path_join (lit ".") e0.1) materialized_example = true.
Proof.
  apply (main_creates_root (lit ".md") outline_example (lit ".")
           kept_file_state materialized_example).
  vm_compute. reflexivity.
Defined.


(** ** The empty record sequence *)

(** C2 (as the code has it): [build_tree] applied to the empty record
    sequence raises nothing: the call returns [None], no node is made,
    and the two renderers take that [None] and give the empty text; for
    every other record sequence the call returns the root of a tree. *)
Theorem build_tree_returns_none_for_empty (entries : list entry) :
  match entries with
  | [] =>
      build_tree_call entries = Returns None
      /\ generate_tree_text (build_tree entries ≫= read_tree) = []
      /\ generate_markdown (build_tree entries ≫= read_tree) = []
  | _ :: _ =>
      exists r t, build_tree_call entries = Returns (Some r)
                  /\ read_tree r = Some t
  end.
Proof.
  destruct entries as [|e0 rest]; [repeat split|].
  pose proof (build_tree_unflatten e0 rest) as Hbuild.
  unfold build_tree_call.
  destruct (build_tree (e0 :: rest)) as [r|]; [|discriminate].
  exists r, (unflatten e0 (deeper_run e0.2 rest)). split; [reflexivity|exact Hbuild].
Qed.

(** C2, counterexample: on the empty record sequence the call of
    [build_tree] returns, with the value [None]; it raises no error. *)
Lemma build_tree_raises_nothing_on_empty :
  build_tree_call [] = Returns None
  /\ forall error, build_tree_call [] <> Raises error.
Proof. split; [reflexivity|]. intros error. discriminate. Qed.

(** ** The outline renderer on the trees of the data model *)

(** Every tree built from an outline or from a tree diagram is in the
    data model: no stored depth is negative. *)
Lemma built_tree_depths_nonneg (entries : list entry) (t : Node) :
  Forall (fun e : entry => 0 <= e.2) entries ->
  build_tree entries ≫= read_tree = Some t ->
  Forall (fun n => 0 <= level n) (preorder t).
Proof.
  intros Hlevels Hbuild. destruct entries as [|e0 rest]; [discriminate|].
  rewrite build_tree_unflatten in Hbuild. injection Hbuild as <-.
  destruct (deeper_run_split e0.2 rest) as (suf & _ & Hdeep & _).
  destruct (unflatten_facts e0 _ Hdeep) as (_ & Hrec & _ & _).
  apply Forall_cons in Hlevels as [H0 Hrest].
  assert (Hall : Forall (fun e : entry => 0 <= e.2)
                   (tree_records (unflatten e0 (deeper_run e0.2 rest)))).
  { rewrite Hrec. constructor; [exact H0|apply Forall_deeper_run, Hrest]. }
  unfold tree_records in Hall. rewrite Forall_map in Hall. exact Hall.
Qed.

Lemma outline_tree_depths_nonneg (text : str) (t : Node) :
  tree_of_markdown text = Some t ->
  Forall (fun n => 0 <= level n) (preorder t).
Proof.
  apply built_tree_depths_nonneg.
  eapply Forall_impl; [apply parse_markdown_entries_trimmed|]. simpl. tauto.
Qed.

(** C7: for every tree of the data model, in which no stored depth is
    negative, the outline renderer emits one line per node in pre-order:
    the root's name at depth 0, and for every other node the four-space
    unit repeated as many times as the node's own stored depth, followed
    by the node's name. *)
Theorem outline_renderer_projects_depths (t : Node) :
  Forall (fun n => 0 <= level n) (preorder t) ->
  generate_markdown (Some t)
  = (name t ++ [NEWLINE])
    ++ concat (outline_line <$> flat_map preorder (children t)).
Proof.
  intros Hlevels. cbn [generate_markdown].
  rewrite generate_markdown_recursive_lines; [reflexivity|discriminate|].
  apply no_hidden_node_levels.
  rewrite preorder_unfold in Hlevels. apply Forall_cons in Hlevels. tauto.
Qed.

Lemma outline_renderer_projects_depths_witness :
  generate_markdown (Some expected_example_tree)
  = (name expected_example_tree ++ [NEWLINE])
    ++ concat (outline_line <$> flat_map preorder (children expected_example_tree)).
Proof.
  apply (outline_renderer_projects_depths expected_example_tree).
  unfold expected_example_tree. simpl.
  repeat (apply Forall_cons_2; [vm_compute; discriminate|]).
  apply Forall_nil_2.
Defined.
